(** * The d20 "push your luck" MDP of [mdp_demo.ipynb]

    A shallow embedding of the three computational pieces of the notebook:
    - the model builder ([make_transition_matrix], [make_reward_matrix]),
    - the value-iteration solver the notebook calls,
    - the state-distribution propagator ([calculate_state_distribution]).

    Conventions.
    - A numpy array is a nested [list]; [T !! a] is a bounds-checked read and
      [<[i:=v]>] an in-place write.
    - numpy stores IEEE doubles.  The code is embedded twice.  In the first
      reading every array cell is an exact rational in canonical form
      ([Qc]): rounding is idealised away, the algebra of the program is
      kept.  It carries the statements that do not depend on rounding:
      shapes, error outcomes, which cells are written, cells that hold 0, 1
      or another number a double represents exactly.  The second reading,
      module [F64], repeats the builder and the propagator on binary64
      numbers with their rounding; it carries the statements about the
      numbers the code really stores, and it is where a statement that
      holds of the rationals only is refuted.
    - Python exceptions are values of [exn]; a call that may raise returns a
      [result]. *)

From Stdlib Require Import ZArith QArith Qabs Qcanon Lia.
From Stdlib Require Import Floats.PrimFloat Floats.FloatOps Floats.SpecFloat.
From Stdlib Require Import Numbers.Cyclic.Int63.Uint63.
From stdpp Require Import base option list numbers.

Local Open Scope Z_scope.
Local Open Scope Qc_scope.
Local Open Scope nat_scope.

(** ** Exceptions and the error monad *)

Inductive exn : Set :=
  | ZeroDivisionError   (* [1/0] *)
  | ValueError          (* numpy: negative dimensions are not allowed *)
  | IndexError          (* index out of bounds for an axis *)
  | InvalidParameter    (* solver: discount, epsilon *)
  | InvalidModel.       (* solver: T not stochastic, or shapes disagree *)

Inductive result (A : Type) : Type :=
  | Ok (a : A)
  | Raise (e : exn).
Global Arguments Ok {A} a.
Global Arguments Raise {A} e.

Definition rbind {A B} (m : result A) (k : A → result B) : result B :=
  match m with
  | Ok a => k a
  | Raise e => Raise e
  end.

Notation "'do' x <- m ; k" := (rbind m (λ x, k))
  (at level 10, x name, m at level 100, k at level 200,
   format "'[v' 'do'  x  <-  m ; '/' k ']'").

Definition returns {A} (m : result A) : Prop := ∃ a, m = Ok a.

(** A monadic [for] loop over a list of indices. *)
Fixpoint forM {St} (l : list nat) (body : nat → St → result St) (st : St)
  : result St :=
  match l with
  | [] => Ok st
  | i :: l' => do st' <- body i st; forM l' body st'
  end.

(** A pure [for] loop: the body cannot raise. *)
Definition for_ {St} (l : list nat) (body : nat → St → St) (st : St) : St :=
  foldl (λ st i, body i st) st l.

(** Python's [range(lo, hi)] for non-negative bounds. *)
Definition range (lo hi : nat) : list nat := seq lo (hi - lo).

(** ** Scalars *)

Definition of_int (z : Z) : Qc := Qc_of_Z z.
Definition of_nat (n : nat) : Qc := Qc_of_Z (Z.of_nat n).

(** Python's true division [1/n] of two ints. *)
Definition py_inv (n : Z) : result Qc :=
  if (n =? 0)%Z then Raise ZeroDivisionError else Ok (/ of_int n)%Qc.

Definition Qc_ltb (x y : Qc) : bool := bool_decide (x < y)%Qc.
Definition Qc_leb (x y : Qc) : bool := bool_decide (x ≤ y)%Qc.

Definition Qc_abs (x : Qc) : Qc := if Qc_ltb x 0 then (- x)%Qc else x.

(** The tolerance [1e-9] on row sums. *)
Definition tolerance : Qc := Q2Qc (1 # 1000000000).
Definition near_one (x : Qc) : bool := Qc_leb (Qc_abs (x - 1)) tolerance.

(** ** Arrays *)

Abbreviation vector := (list Qc).
Abbreviation matrix := (list (list Qc)).
Abbreviation tensor := (list (list (list Qc))).

(** [np.zeros(shape=...)]: a negative dimension raises [ValueError]. *)
Definition np_zeros1 (n : nat) : vector := replicate n 0%Qc.
Definition np_zeros2 (m n : nat) : matrix := replicate m (np_zeros1 n).
Definition np_zeros3 (l m n : nat) : tensor := replicate l (np_zeros2 m n).

Definition np_dim (d : Z) : result nat :=
  if (d <? 0)%Z then Raise ValueError else Ok (Z.to_nat d).

(** numpy integer indexing along an axis of length [len]: negative indices
    count from the end, anything outside [-len, len) raises. *)
Definition np_index (len : nat) (i : Z) : result nat :=
  if ((0 <=? i) && (i <? Z.of_nat len))%Z then Ok (Z.to_nat i)
  else if ((- Z.of_nat len <=? i) && (i <? 0))%Z then Ok (Z.to_nat (Z.of_nat len + i))
  else Raise IndexError.

(** Reads; [None] is "out of bounds". *)
Definition get1 (v : vector) (i : nat) : option Qc := v !! i.
Definition get2 (M : matrix) (i j : nat) : option Qc :=
  match M !! i with Some v => get1 v j | None => None end.
Definition get3 (T : tensor) (a s s' : nat) : option Qc :=
  match T !! a with Some M => get2 M s s' | None => None end.

(** [M[i]] and [T[a,s]], row views (empty when out of bounds). *)
Definition row2 (M : matrix) (i : nat) : vector := default [] (M !! i).
Definition row (T : tensor) (a s : nat) : vector :=
  row2 (default [] (T !! a)) s.

(** Writes at indices known to be in bounds. *)
Definition set2 (M : matrix) (i j : nat) (v : Qc) : matrix :=
  alter (<[j:=v]>) i M.
Definition set3 (T : tensor) (a s s' : nat) (v : Qc) : tensor :=
  alter (alter (<[s':=v]>) s) a T.

(** [T[a,s,s'] = v] with integer indices as numpy checks them. *)
Definition setitem3 (T : tensor) (a s s' : Z) (v : Qc) : result tensor :=
  do a <- np_index (length T) a;
  do s <- np_index (length (default [] (T !! a))) s;
  do s' <- np_index (length (row T a s)) s';
  Ok (set3 T a s s' v).

(** [v.sum()] *)
Definition np_sum (v : vector) : Qc := foldr Qcplus 0%Qc v.

(** [T[T<0] = 0] *)
Definition clamp (x : Qc) : Qc := if Qc_ltb x 0 then 0%Qc else x.
Definition clamp_negative (T : tensor) : tensor :=
  fmap (M := list) (fmap (M := list) (fmap (M := list) clamp)) T.

(** ** Model builder *)

Definition CONTINUE : nat := 0.
Definition STOP : nat := 1.

Definition make_transition_matrix (n_sides max_score : Z) : result tensor :=
  let A := 2 in
  do S <- np_dim (max_score + 2);
  let T := np_zeros3 A S S in
  do p <- py_inv n_sides;
  (* All the "roll" action transitions *)
  let T :=
    for_ (range 0 (S - 1)) (λ s T,
      for_ (range (s + 1) (S - 1)) (λ sprime T,
        if (Z.of_nat sprime <=? Z.of_nat s + n_sides)%Z
        then set3 T 0 s sprime p
        else T) T) T in
  (* the remaining probability goes to the terminal state *)
  let T :=
    for_ (range 0 (S - 1)) (λ s T,
      set3 T 0 s (S - 1) (1 - np_sum (row T 0 s))%Qc) T in
  (* the terminal state is absorbing *)
  do T <- setitem3 T 0 (max_score + 2 - 1) (max_score + 2 - 1) 1%Qc;
  (* All the "stay" action transitions: T[1,:,S-1] = 1 *)
  let T := alter (fmap (M := list) (<[S - 1 := 1%Qc]>)) 1 T in
  Ok (clamp_negative T).

Definition make_reward_matrix (max_score : Z) : result matrix :=
  let A := 2 in
  do S <- np_dim (max_score + 2);
  let R := np_zeros2 S A in
  let R := for_ (range 0 (S - 1)) (λ s R, set2 R s 1 (of_nat s)) R in
  Ok R.

(** The builder of the specification: both arrays, built as in the
    notebook's solver cell. *)
Definition build_model (n_sides max_score : Z) : result (tensor * matrix) :=
  do T <- make_transition_matrix n_sides max_score;
  do R <- make_reward_matrix max_score;
  Ok (T, R).

(** ** Value-iteration solver *)

Definition dot (u v : vector) : Qc := np_sum (zip_with Qcmult u v).

(** Sum of [f 0 .. f (n-1)]. *)
Definition big_sum (n : nat) (f : nat → Qc) : Qc := np_sum (f <$> seq 0 n).

Record solution := Solution {
  sol_V : vector;
  sol_policy : list nat;
  sol_iterations : nat;
  sol_converged : bool;
}.

Section solver.
Context (T : tensor) (R : matrix) (discount epsilon : Qc).

Let S := length R.
Let A := length T.

(** Modelled from the spec: the Bellman backup of section 4.2,
    [Q(s,a) = R(s,a) + discount * sum_s' T(a,s,s') * V(s')].  The notebook
    delegates it to [mdptoolbox.mdp.ValueIteration], a third-party class
    whose code is not in the repository. *)
Definition q_value (V : vector) (s a : nat) : Qc :=
  (default 0 (get2 R s a) + discount * dot (row T a s) V)%Qc.

(** Modelled from the spec: [max_a] and [argmax_a] of section 4.2, ties
    going to the lower-indexed action.  The solver class is not in the
    repository. *)
Fixpoint argmax_from (qs : list Qc) (i : nat) (best : nat * Qc) : nat * Qc :=
  match qs with
  | [] => best
  | q :: qs' =>
      argmax_from qs' (i + 1) (if Qc_ltb (snd best) q then (i, q) else best)
  end.

(** Modelled from the spec: the greedy choice among the values of the
    actions of one state; with no action at all the default is STOP.  The
    solver class is not in the repository. *)
Definition best_action (qs : list Qc) : nat * Qc :=
  match qs with
  | [] => (STOP, 0%Qc)
  | q :: qs' => argmax_from qs' 1 (0, q)
  end.

(** Modelled from the spec: one sweep [V_{k-1} -> (V_k, pi_k)] of section
    4.2 over every state.  The solver class is not in the repository. *)
Definition bellman (V : vector) : vector * list nat :=
  let best := (λ s, best_action (q_value V s <$> seq 0 A)) <$> seq 0 S in
  (snd <$> best, fst <$> best).

(** Modelled from the spec: the largest and the smallest entry of a vector,
    as the convergence test of section 4.2 needs them.  The solver class is
    not in the repository. *)
Definition vmax (v : vector) : Qc :=
  match v with
  | [] => 0%Qc
  | x :: v' => foldl (λ m y, if Qc_ltb m y then y else m) x v'
  end.
Definition vmin (v : vector) : Qc :=
  match v with
  | [] => 0%Qc
  | x :: v' => foldl (λ m y, if Qc_ltb y m then y else m) x v'
  end.

(** Modelled from the spec: the convergence test of section 4.2, the span
    of [V_k - V_{k-1}] against [epsilon*(1-discount)/discount] when
    [discount < 1], the largest absolute change against [epsilon] when
    [discount = 1].  The solver class is not in the repository. *)
Definition converged (V Vprev : vector) : bool :=
  let d := zip_with Qcminus V Vprev in
  if Qc_ltb discount 1
  then Qc_leb (vmax d - vmin d) (epsilon * (1 - discount) / discount)
  else Qc_leb (vmax (Qc_abs <$> d)) epsilon.

(** Modelled from the spec: the iteration of section 4.2, at most
    [max_iter] sweeps from [V_0 = 0]; running out of sweeps is reported
    with [converged = false].  The solver class is not in the repository. *)
Fixpoint iterate (fuel k : nat) (V : vector) (policy : list nat) : solution :=
  match fuel with
  | 0 => Solution V policy k false
  | Datatypes.S fuel' =>
      let '(V', policy') := bellman V in
      if converged V' V then Solution V' policy' (k + 1) true
      else iterate fuel' (k + 1) V' policy'
  end.

(** Modelled from the spec: the checks of section 7 on the model, rows of
    every [T[a]] summing to 1 within [1e-9] and the shapes of [T] and [R]
    agreeing.  The solver class is not in the repository. *)
Definition valid_model : bool :=
  forallb (λ M, (length M =? S) &&
                forallb (λ r, (length r =? S) && near_one (np_sum r)) M) T
  && forallb (λ r, length r =? A) R.

(** Modelled from the spec: the contract [solve(T, R, discount, epsilon,
    max_iter)] of sections 4.2 and 7.  [max_iter = 0] follows the boundary
    property of section 8 (an immediate return, not an error).  The solver
    class is not in the repository. *)
Definition solve (max_iter : nat) : result solution :=
  if negb (Qc_ltb 0 discount && Qc_leb discount 1) then Raise InvalidParameter
  else if Qc_leb epsilon 0 then Raise InvalidParameter
  else if negb valid_model then Raise InvalidModel
  else Ok (iterate max_iter 0 (np_zeros1 S) (replicate S STOP)).
End solver.

(** The notebook's solver cell: build both arrays, then run the solver on
    them ([solve] standing for [mdp.ValueIteration(...).run()]). *)
Definition solve_game (n_sides max_score : Z) (discount epsilon : Qc)
    (max_iter : nat) : result solution :=
  do T <- make_transition_matrix n_sides max_score;
  do R <- make_reward_matrix max_score;
  solve T R discount epsilon max_iter.

(** ** State distribution propagator *)

(** [T[a,s,s']] with integer indices as numpy checks them. *)
Definition getitem3 (T : tensor) (a s s' : Z) : result Qc :=
  do a <- np_index (length T) a;
  do s <- np_index (length (default [] (T !! a))) s;
  do s' <- np_index (length (row T a s)) s';
  Ok (default 0%Qc (row T a s !! s')).

(** [rho[:,:,t]] and [rho[:,:,t] = M]. *)
Definition slice_t (rho : tensor) (t : nat) : matrix :=
  fmap (M := list) (fmap (M := list) (λ ts : vector, default 0%Qc (ts !! t))) rho.
Definition set_slice_t (rho : tensor) (t : nat) (M : matrix) : tensor :=
  zip_with (zip_with (λ (ts : vector) v, <[t:=v]> ts)) rho M.

(** [np.einsum("ji,kj->ki", T, X)]: [out[k,i] = sum_j T[j,i] * X[k,j]]. *)
Definition col (M : matrix) (i : nat) : vector :=
  (λ r : vector, default 0%Qc (r !! i)) <$> M.
Definition einsum_ji_kj_ki (T X : matrix) : matrix :=
  (λ xk : vector, (λ i, dot (col T i) xk) <$> seq 0 (length (row2 T 0))) <$> X.

Definition calculate_state_distribution (policy : list Z) (T : tensor) (t_max : Z)
  : result tensor :=
  let S := length policy in
  (* Reduce transition matrix to T(s';s) since policy is fixed *)
  let T_ := np_zeros2 S S in
  do T_ <-
    forM (range 0 S) (λ s T_,
      forM (range 0 S) (λ sprime T_,
        do v <- getitem3 T (default 0%Z (policy !! s)) (Z.of_nat s) (Z.of_nat sprime);
        Ok (set2 T_ s sprime v)) T_) T_;
  let T := T_ in
  (* Initialize rho *)
  do D <- np_dim (t_max + 1);
  let rho := np_zeros3 S S D in
  do rho <-
    forM (range 0 S) (λ s rho,
      setitem3 rho (Z.of_nat s) (Z.of_nat s) 0 1%Qc) rho;
  (* Use the iterative update equation *)
  let rho :=
    for_ (range 1 D) (λ t rho,
      set_slice_t rho t (einsum_ji_kj_ki T (slice_t rho (t - 1)))) rho in
  Ok rho.

(** ** Vocabulary of the statements *)

(** Number of states of a transition tensor. *)
Definition num_states (T : tensor) : nat := length (default [] (T !! 0)).

(** State [s] is absorbing: every action leads from [s] back to [s]. *)
Definition absorbing (T : tensor) (s : nat) : Prop :=
  ∀ a, a < length T → get3 T a s s = Some 1%Qc.

(** [T] has the shape [(A, S, S)]. *)
Definition has_shape (T : tensor) (A S : nat) : Prop :=
  length T = A ∧
  ∀ a, a < A → length (default [] (T !! a)) = S ∧
    ∀ s, s < S → length (row T a s) = S.


(** A policy whose action indices all lie in [0, A). *)
Definition policy_in_range (policy : list Z) (A : nat) : Prop :=
  Forall (λ a, (0 ≤ a < Z.of_nat A)%Z) policy.

(** An action index as numpy resolves it on an axis of length [A]: a
    negative index counts from the end. *)
Definition resolve_action (A : nat) (a : Z) : Z :=
  if (a <? 0)%Z then (a + Z.of_nat A)%Z else a.


(** Every read [T[policy[s], s, s']] the propagator makes is in bounds. *)
Definition reads_defined (policy : list Z) (T : tensor) : Prop :=
  ∀ s s', s < length policy → s' < length policy →
    returns (getitem3 T (default 0%Z (policy !! s)) (Z.of_nat s) (Z.of_nat s')).

(** Arrays given by their cells. *)
Definition tab1 (n : nat) (f : nat → Qc) : vector := f <$> seq 0 n.
Definition tab2 (m n : nat) (f : nat → nat → Qc) : matrix :=
  (λ i, tab1 n (f i)) <$> seq 0 m.
Definition tab3 (l m n : nat) (f : nat → nat → nat → Qc) : tensor :=
  (λ i, tab2 m n (f i)) <$> seq 0 l.

(** ** The propagator as the specification words it *)

(** The fixed-policy transition matrix, [T_pi(s,s') = T[policy(s), s, s']]. *)
Definition T_pi (policy : list Z) (T : tensor) (s s' : nat) : Qc :=
  match getitem3 T (default 0%Z (policy !! s)) (Z.of_nat s) (Z.of_nat s') with
  | Ok v => v
  | Raise _ => 0%Qc
  end.

(** The recurrence: [rho(s0,s,0)] is the indicator of [s = s0], and
    [rho(s0,s,t) = sum_s' T_pi(s',s) * rho(s0,s',t-1)]. *)
Fixpoint rho_spec (policy : list Z) (T : tensor) (s0 s t : nat) : Qc :=
  match t with
  | 0 => if bool_decide (s = s0) then 1%Qc else 0%Qc
  | Datatypes.S t' =>
      big_sum (length policy)
        (λ s', T_pi policy T s' s * rho_spec policy T s0 s' t')%Qc
  end.

(** ** Closed forms used to describe the builder's output *)

(** The cells the first loop nest writes in row [s] of [T[0]]. *)
Definition reach (n_sides : Z) (S s j : nat) : bool :=
  bool_decide (s + 1 ≤ j < S - 1) && (Z.of_nat j <=? Z.of_nat s + n_sides)%Z.

(** Row [s] of [T[0]] after the first loop nest. *)
Definition roll_partial (n_sides : Z) (S s : nat) : vector :=
  (λ j, if reach n_sides S s j then (/ of_int n_sides)%Qc else 0%Qc) <$> seq 0 S.

(** The inner loop of the first nest, run on the row it writes. *)
Definition fill_row (n_sides : Z) (S s : nat) : vector → vector :=
  for_ (range (s + 1) (S - 1)) (λ sprime r,
    alter (λ x, if (Z.of_nat sprime <=? Z.of_nat s + n_sides)%Z
                then (/ of_int n_sides)%Qc else x) sprime r).

(** How many faces keep the sum within [max_score] from state [s]. *)
Definition safe_faces (n_sides : Z) (S s : nat) : nat :=
  Nat.min (S - 1) (s + Z.to_nat n_sides + 1) - (s + 1).

(** A row with all its mass on the terminal state. *)
Definition terminal_row (S : nat) : vector := <[S - 1 := 1%Qc]> (np_zeros1 S).

(** Row [s] of [T[0]] once the residual has been written. *)
Definition roll_row (n_sides : Z) (S s : nat) : vector :=
  if bool_decide (s < S - 1)
  then <[S - 1 := (1 - np_sum (roll_partial n_sides S s))%Qc]> (roll_partial n_sides S s)
  else terminal_row S.

(** * The same code on IEEE doubles *)

(** Rocq's primitive floats are binary64 numbers with round-to-nearest-even,
    the arithmetic of a Python [float] and of a numpy [float64] cell.  The
    module repeats the builder and the propagator operation for operation,
    so that evaluating it gives the numbers the code stores. *)
Module F64.

Abbreviation vector := (list float).
Abbreviation matrix := (list (list float)).
Abbreviation tensor := (list (list (list float))).

(** [float(z)], exact for [|z| <= 2^53]. *)
Definition of_int (z : Z) : float :=
  if (z <? 0)%Z then PrimFloat.opp (of_uint63 (Uint63.of_Z (- z)))
  else of_uint63 (Uint63.of_Z z).

(** Python's true division [1/n] of two ints: for [|n| <= 2^53] CPython
    converts both to doubles and divides them. *)
Definition py_inv (n : Z) : result float :=
  if (n =? 0)%Z then Raise ZeroDivisionError
  else Ok (PrimFloat.div 1%float (of_int n)).

(** The number a double stands for, [m * 2^e]; none for an infinity or a
    NaN. *)
Definition to_dyadic (x : float) : option (Z * Z) :=
  match Prim2SF x with
  | S754_zero _ => Some (0%Z, 0%Z)
  | S754_finite s m e => Some (if s then Z.neg m else Z.pos m, e)
  | _ => None
  end.

Definition dyadic_Q (d : Z * Z) : Q :=
  match d.2 with
  | Z0 => d.1 # 1
  | Z.pos k => (d.1 * 2 ^ Z.pos k) # 1
  | Z.neg k => d.1 # 2 ^ k
  end.

Definition to_Q (x : float) : option Q := dyadic_Q <$> to_dyadic x.

(** The sum of two such numbers, with no rounding. *)
Definition dyadic_add (d1 d2 : Z * Z) : Z * Z :=
  let e := Z.min d1.2 d2.2 in
  (Z.shiftl d1.1 (d1.2 - e) + Z.shiftl d2.1 (d2.2 - e), e)%Z.

(** [x] is within [tol] of the rational [q]. *)
Definition within (x : float) (q tol : Q) : Prop :=
  ∃ v, to_Q x = Some v ∧ (Qabs (v - q) <= tol)%Q.
Definition within_b (x : float) (q tol : Q) : bool :=
  match to_Q x with
  | Some v => Qle_bool (Qabs (v - q)) tol
  | None => false
  end.

(** The sum of the cells of a vector, with no rounding. *)
Fixpoint exact_sum_dyadic (v : vector) : option (Z * Z) :=
  match v with
  | [] => Some (0%Z, 0%Z)
  | x :: v' =>
      match to_dyadic x, exact_sum_dyadic v' with
      | Some d, Some r => Some (dyadic_add d r)
      | _, _ => None
      end
  end.
Definition exact_sum (v : vector) : option Q := dyadic_Q <$> exact_sum_dyadic v.

Definition np_zeros1 (n : nat) : vector := replicate n 0%float.
Definition np_zeros2 (m n : nat) : matrix := replicate m (np_zeros1 n).
Definition np_zeros3 (l m n : nat) : tensor := replicate l (np_zeros2 m n).

Definition get3 (T : tensor) (a s s' : nat) : option float :=
  match T !! a with
  | Some M => match M !! s with Some v => v !! s' | None => None end
  | None => None
  end.
Definition row (T : tensor) (a s : nat) : vector :=
  default [] (default [] (T !! a) !! s).

Definition set2 (M : matrix) (i j : nat) (v : float) : matrix :=
  alter (<[j:=v]>) i M.
Definition set3 (T : tensor) (a s s' : nat) (v : float) : tensor :=
  alter (alter (<[s':=v]>) s) a T.

Definition setitem3 (T : tensor) (a s s' : Z) (v : float) : result tensor :=
  do a <- np_index (length T) a;
  do s <- np_index (length (default [] (T !! a))) s;
  do s' <- np_index (length (row T a s)) s';
  Ok (set3 T a s s' v).
Definition getitem3 (T : tensor) (a s s' : Z) : result float :=
  do a <- np_index (length T) a;
  do s <- np_index (length (default [] (T !! a))) s;
  do s' <- np_index (length (row T a s)) s';
  Ok (default 0%float (row T a s !! s')).

(** [v.sum()] on a contiguous row of doubles is numpy's pairwise summation.
    Fewer than 8 cells are added from left to right, [res += a[i]]. *)
Definition sum_from (res : float) (a : vector) : float :=
  foldl PrimFloat.add res a.

(** Up to 128 cells go through eight running sums [r[0..7]], the cells
    taken eight at a time, [r[j] += a[i+j]]. *)
Fixpoint add_blocks (k : nat) (r a : vector) : vector :=
  match k with
  | 0 => r
  | Datatypes.S k' =>
      add_blocks k' (zip_with PrimFloat.add r (take 8 a)) (drop 8 a)
  end.

(** The eight sums are then combined as
    [((r0+r1)+(r2+r3)) + ((r4+r5)+(r6+r7))] and the [n % 8] cells left over
    are added one by one. *)
Definition unrolled_sum (a : vector) : float :=
  let n := length a in
  let r := add_blocks (n / 8 - 1) (take 8 a) (drop 8 a) in
  let r_ (i : nat) := default 0%float (r !! i) in
  let res := PrimFloat.add
    (PrimFloat.add (PrimFloat.add (r_ 0) (r_ 1)) (PrimFloat.add (r_ 2) (r_ 3)))
    (PrimFloat.add (PrimFloat.add (r_ 4) (r_ 5)) (PrimFloat.add (r_ 6) (r_ 7))) in
  sum_from res (drop (8 * (n / 8)) a).

(** More than 128 cells are split in two halves, the first a multiple of 8
    long, each summed in the same way.  The recursion halves the vector, so
    [fuel = length a] is never used up. *)
Fixpoint pairwise_sum (fuel : nat) (a : vector) : float :=
  let n := length a in
  if n <? 8 then sum_from 0%float a
  else if n <=? 128 then unrolled_sum a
  else match fuel with
       | 0 => unrolled_sum a
       | Datatypes.S fuel' =>
           let n2 := n / 2 in
           let n2 := n2 - n2 mod 8 in
           PrimFloat.add (pairwise_sum fuel' (take n2 a))
                         (pairwise_sum fuel' (drop n2 a))
       end.

(** The reduction starts from the identity 0 of [+]. *)
Definition np_sum (v : vector) : float :=
  PrimFloat.add 0%float (pairwise_sum (length v) v).

(** [T[T<0] = 0] *)
Definition clamp (x : float) : float :=
  if PrimFloat.ltb x 0%float then 0%float else x.
Definition clamp_negative (T : tensor) : tensor :=
  fmap (M := list) (fmap (M := list) (fmap (M := list) clamp)) T.

Definition make_transition_matrix (n_sides max_score : Z) : result tensor :=
  let A := 2 in
  do S <- np_dim (max_score + 2);
  let T := np_zeros3 A S S in
  do p <- py_inv n_sides;
  (* All the "roll" action transitions *)
  let T :=
    for_ (range 0 (S - 1)) (λ s T,
      for_ (range (s + 1) (S - 1)) (λ sprime T,
        if (Z.of_nat sprime <=? Z.of_nat s + n_sides)%Z
        then set3 T 0 s sprime p
        else T) T) T in
  (* the remaining probability goes to the terminal state *)
  let T :=
    for_ (range 0 (S - 1)) (λ s T,
      set3 T 0 s (S - 1) (PrimFloat.sub 1%float (np_sum (row T 0 s)))) T in
  (* the terminal state is absorbing *)
  do T <- setitem3 T 0 (max_score + 2 - 1) (max_score + 2 - 1) 1%float;
  (* All the "stay" action transitions: T[1,:,S-1] = 1 *)
  let T := alter (fmap (M := list) (<[S - 1 := 1%float]>)) 1 T in
  Ok (clamp_negative T).

(** [rho[:,:,t]] and [rho[:,:,t] = M]. *)
Definition slice_t (rho : tensor) (t : nat) : matrix :=
  fmap (M := list) (fmap (M := list) (λ ts : vector, default 0%float (ts !! t))) rho.
Definition set_slice_t (rho : tensor) (t : nat) (M : matrix) : tensor :=
  zip_with (zip_with (λ (ts : vector) v, <[t:=v]> ts)) rho M.

(** [np.einsum("ji,kj->ki", T, X)]: [out[k,i] = sum_j T[j,i] * X[k,j]], each
    product rounded, the products of one cell added to a running sum that
    starts at 0, [j] going up.  numpy does not promise that order; what is
    stated below of a run with more than two states is a tolerance, and the
    two-state run of the counterexample adds two products only, whose sum
    does not depend on the order. *)
Definition col (M : matrix) (i : nat) : vector :=
  (λ r : vector, default 0%float (r !! i)) <$> M.
Definition dot (u v : vector) : float :=
  foldl (λ acc tx, PrimFloat.add acc (PrimFloat.mul tx.1 tx.2)) 0%float (zip u v).
Definition einsum_ji_kj_ki (T X : matrix) : matrix :=
  (λ xk : vector,
     (λ i, dot (col T i) xk) <$> seq 0 (length (default [] (T !! 0)))) <$> X.

Definition calculate_state_distribution (policy : list Z) (T : tensor) (t_max : Z)
  : result tensor :=
  let S := length policy in
  (* Reduce transition matrix to T(s';s) since policy is fixed *)
  let T_ := np_zeros2 S S in
  do T_ <-
    forM (range 0 S) (λ s T_,
      forM (range 0 S) (λ sprime T_,
        do v <- getitem3 T (default 0%Z (policy !! s)) (Z.of_nat s) (Z.of_nat sprime);
        Ok (set2 T_ s sprime v)) T_) T_;
  let T := T_ in
  (* Initialize rho *)
  do D <- np_dim (t_max + 1);
  let rho := np_zeros3 S S D in
  do rho <-
    forM (range 0 S) (λ s rho,
      setitem3 rho (Z.of_nat s) (Z.of_nat s) 0 1%float) rho;
  (* Use the iterative update equation *)
  let rho :=
    for_ (range 1 D) (λ t rho,
      set_slice_t rho t (einsum_ji_kj_ki T (slice_t rho (t - 1)))) rho in
  Ok rho.


(** Row [s] of [T[0]] after the first loop nest, and the loop that writes
    it. *)
Definition roll_partial (n_sides : Z) (S s : nat) : vector :=
  (λ j, if reach n_sides S s j
        then PrimFloat.div 1%float (of_int n_sides) else 0%float) <$> seq 0 S.
Definition fill_row (n_sides : Z) (S s : nat) : vector → vector :=
  for_ (range (s + 1) (S - 1)) (λ sprime r,
    alter (λ x, if (Z.of_nat sprime <=? Z.of_nat s + n_sides)%Z
                then PrimFloat.div 1%float (of_int n_sides) else x) sprime r).

(** A row with all its mass on the terminal state. *)
Definition terminal_row (S : nat) : vector := <[S - 1 := 1%float]> (np_zeros1 S).

(** Row [s] of [T[0]] once the residual has been written. *)
Definition roll_row (n_sides : Z) (S s : nat) : vector :=
  if bool_decide (s < S - 1)
  then <[S - 1 := PrimFloat.sub 1%float (np_sum (roll_partial n_sides S s))]>
         (roll_partial n_sides S s)
  else terminal_row S.

End F64.

(** ** Checks by evaluation *)



(** A cell holds a number of [0, 1]: [0 <= x] and [x <= 1] as doubles
    compare. *)
Definition unit_interval_b (x : float) : bool :=
  PrimFloat.leb 0%float x && PrimFloat.leb x 1%float.
Definition unit_interval (x : float) : Prop := unit_interval_b x = true.

(** The sum of a row is within [tol] of 1, as numpy computes it and with no
    rounding of the sum. *)
Definition row_close (tol : Q) (r : F64.vector) : Prop :=
  F64.within (F64.np_sum r) 1 tol
  ∧ ∃ m, F64.exact_sum r = Some m ∧ (Qabs (m - 1) <= tol)%Q.
Definition row_close_b (tol : Q) (r : F64.vector) : bool :=
  F64.within_b (F64.np_sum r) 1 tol
  && match F64.exact_sum r with
     | Some m => Qle_bool (Qabs (m - 1)) tol
     | None => false
     end.

(** The tensor built on doubles has the shape [(2, S, S)], rows that sum to
    1 within [tol] and cells in [0, 1]. *)
Definition rows_close (tol : Q) (n_sides max_score : Z) : bool :=
  match F64.make_transition_matrix n_sides max_score with
  | Ok T =>
      let S := Z.to_nat (max_score + 2) in
      (length T =? 2)
      && forallb (λ M,
           (length M =? S)
           && forallb (λ r,
                (length r =? S) && row_close_b tol r
                && forallb unit_interval_b r) M) T
  | Raise _ => false
  end.

(** A check run on every pair [(n_sides, max_score)] of [1..N] x [1..N]. *)
Definition each_pair (N : nat) (P : Z → Z → bool) : bool :=
  forallb (λ n, forallb (λ M, P (Z.of_nat n) (Z.of_nat M)) (seq 1 N)) (seq 1 N).




(** * Proofs *)

(** ** Loops *)

Section loops.
Context {St : Type}.
Implicit Types (body : nat → St → St) (st : St) (l : list nat).

Lemma for_nil body st : for_ [] body st = st.
Proof. reflexivity. Qed.

Lemma for_cons body st i l :
  for_ (i :: l) body st = for_ l body (body i st).
Proof. reflexivity. Qed.

Lemma for_snoc body st l i :
  for_ (l ++ [i]) body st = body i (for_ l body st).
Proof. unfold for_. by rewrite foldl_snoc. Qed.

Lemma for_ext body1 body2 st l :
  (∀ i st', i ∈ l → body1 i st' = body2 i st') →
  for_ l body1 st = for_ l body2 st.
Proof.
  revert st. induction l as [|i l IH]; intros st Hext; [done|].
  rewrite !for_cons, Hext by left.
  apply IH. intros j st' Hj. apply Hext. by right.
Qed.

(** The loop-invariant rule for [for i in range(lo, hi)]. *)
Lemma for_range_ind (P : nat → St → Prop) body st lo hi :
  lo ≤ hi →
  P lo st →
  (∀ i st', lo ≤ i < hi → P i st' → P (i + 1) (body i st')) →
  P hi (for_ (range lo hi) body st).
Proof.
  intros Hle H0 Hstep. unfold range.
  replace hi with (lo + (hi - lo)) at 1 by lia.
  assert (Hk : hi - lo ≤ hi - lo) by lia. revert Hk.
  generalize (hi - lo) at 1 3 4 as k.
  induction k as [|k IH]; intros Hk.
  - by rewrite Nat.add_0_r.
  - rewrite seq_S, for_snoc.
    replace (lo + Datatypes.S k) with (lo + k + 1) by lia.
    apply Hstep; [lia|]. apply IH. lia.
Qed.
End loops.

Lemma forM_snoc {St} (body : nat → St → result St) (st : St) l i :
  forM (l ++ [i]) body st = rbind (forM l body st) (body i).
Proof.
  revert st. induction l as [|j l IH]; intros st; simpl.
  - by destruct (body i st).
  - destruct (body j st) as [st'|]; [apply IH|done].
Qed.

(** The loop-invariant rule for a loop whose body may raise: if no pass
    raises under the invariant, the loop returns. *)
Lemma forM_range_ind {St} (P : nat → St → Prop)
    (body : nat → St → result St) (st : St) lo hi :
  lo ≤ hi →
  P lo st →
  (∀ i st', lo ≤ i < hi → P i st' → ∃ st'', body i st' = Ok st'' ∧ P (i + 1) st'') →
  ∃ st', forM (range lo hi) body st = Ok st' ∧ P hi st'.
Proof.
  intros Hle H0 Hstep. unfold range.
  cut (∀ k, k ≤ hi - lo →
         ∃ st', forM (seq lo k) body st = Ok st' ∧ P (lo + k) st').
  { intros Hcut. destruct (Hcut (hi - lo)) as (st' & ? & HP); [lia|].
    exists st'. split; [done|]. by replace hi with (lo + (hi - lo)) by lia. }
  induction k as [|k IH]; intros Hk.
  - exists st. by rewrite Nat.add_0_r.
  - destruct IH as (st' & Hrun & HP); [lia|].
    destruct (Hstep (lo + k) st') as (st'' & Hbody & HP''); [lia|done|].
    exists st''. rewrite seq_S, forM_snoc, Hrun. split; [done|].
    by replace (lo + Datatypes.S k) with (lo + k + 1) by lia.
Qed.

(** A loop whose body rewrites one cell [a] of a list is a rewrite of that
    cell by the loop run on the cell alone. *)
Lemma for_alter_at {A} (g : nat → A → A) (a : nat) (l : list nat) (T : list A) :
  for_ l (λ i T, alter (g i) a T) T = alter (for_ l g) a T.
Proof.
  revert T. induction l as [|i l IH]; intros T.
  - symmetry. by apply list_alter_id.
  - rewrite for_cons, IH, list_alter_alter_eq. apply list_alter_ext; [|done].
    by intros.
Qed.

(** A loop over [range(lo, hi)] whose [i]-th pass rewrites cell [i]. *)
Lemma lookup_for_alter {A} (h : nat → A → A) (lo hi : nat) (l : list A) (j : nat) :
  for_ (range lo hi) (λ i l, alter (h i) i l) l !! j
  = (λ x, if bool_decide (lo ≤ j < hi) then h j x else x) <$> l !! j.
Proof.
  destruct (decide (lo ≤ hi)) as [Hle|Hgt].
  - apply (for_range_ind
      (λ k l', l' !! j
         = (λ x, if bool_decide (lo ≤ j < k) then h j x else x) <$> l !! j)
      (λ i l, alter (h i) i l) l lo hi Hle).
    + rewrite bool_decide_eq_false_2 by lia. by destruct (l !! j).
    + intros i l' Hi IH. destruct (decide (i = j)) as [->|Hne].
      * rewrite list_lookup_alter_eq, IH.
        rewrite bool_decide_eq_false_2, bool_decide_eq_true_2 by lia.
        by destruct (l !! j).
      * rewrite list_lookup_alter_ne, IH by done.
        destruct (l !! j); [simpl|done].
        do 2 case_bool_decide; (done || lia).
  - unfold range. replace (hi - lo) with 0 by lia. rewrite for_nil.
    rewrite bool_decide_eq_false_2 by lia. by destruct (l !! j).
Qed.

Lemma length_for_alter {A} (h : nat → A → A) (r : list nat) (l : list A) :
  length (for_ r (λ i l, alter (h i) i l) l) = length l.
Proof.
  revert l. induction r as [|i r IH]; intros l; [done|].
  by rewrite for_cons, IH, length_alter.
Qed.

(** ** Arrays *)

Lemma set3_alter (T : tensor) a s s' v :
  set3 T a s s' v = alter (alter (alter (λ _, v) s') s) a T.
Proof.
  unfold set3. apply list_alter_ext; [|done]. intros M _.
  apply list_alter_ext; [|done]. intros r _. apply list_insert_alter.
Qed.

(** A write whose value is computed from the row being written. *)
Lemma set3_row (T : tensor) a s s' (F : vector → Qc) :
  set3 T a s s' (F (row T a s)) = alter (alter (λ r, <[s':=F r]> r) s) a T.
Proof.
  unfold set3, row, row2.
  destruct (T !! a) as [M|] eqn:HM; simpl.
  - apply list_alter_ext; [|done]. intros M' HM'.
    assert (M' = M) as -> by congruence.
    destruct (M !! s) as [r|] eqn:Hr; simpl.
    + apply list_alter_ext; [|done]. intros r' Hr'. by assert (r' = r) as -> by congruence.
    + apply lookup_ge_None in Hr. revert Hr. clear. revert s.
      induction M as [|x M IH]; intros [|s] ?; simpl in *; try done; try lia.
      f_equal. apply IH. lia.
  - apply lookup_ge_None in HM. revert HM. clear. revert a.
    induction T as [|x T IH]; intros [|a] ?; simpl in *; try done; try lia.
    f_equal. apply IH. lia.
Qed.

Lemma np_index_in_range len (i : nat) :
  i < len → np_index len (Z.of_nat i) = Ok i.
Proof.
  intros. unfold np_index.
  rewrite (proj2 (Z.leb_le _ _)), (proj2 (Z.ltb_lt _ _)) by lia.
  simpl. by rewrite Nat2Z.id.
Qed.

Lemma row_lookup (T : tensor) a s M r :
  T !! a = Some M → M !! s = Some r → row T a s = r.
Proof. intros HM Hr. unfold row, row2. rewrite HM. simpl. by rewrite Hr. Qed.

Lemma setitem3_in_range (T : tensor) a s s' v M r :
  T !! a = Some M → M !! s = Some r → s' < length r →
  setitem3 T (Z.of_nat a) (Z.of_nat s) (Z.of_nat s') v = Ok (set3 T a s s' v).
Proof.
  intros HM Hr Hs'. unfold setitem3.
  rewrite np_index_in_range by (by eapply lookup_lt_Some). cbn [rbind].
  rewrite HM. change (default [] (Some M)) with M.
  rewrite np_index_in_range by (by eapply lookup_lt_Some). cbn [rbind].
  rewrite (row_lookup T a s M r) by done.
  by rewrite np_index_in_range.
Qed.

Lemma getitem3_in_range (T : tensor) a s s' x :
  get3 T a s s' = Some x →
  getitem3 T (Z.of_nat a) (Z.of_nat s) (Z.of_nat s') = Ok x.
Proof.
  unfold get3, get2, get1, getitem3.
  destruct (T !! a) as [M|] eqn:HM; [|done].
  destruct (M !! s) as [r|] eqn:Hr; [|done]. intros Hx.
  rewrite np_index_in_range by (by eapply lookup_lt_Some). cbn [rbind].
  rewrite HM. change (default [] (Some M)) with M.
  rewrite np_index_in_range by (by eapply lookup_lt_Some). cbn [rbind].
  rewrite (row_lookup T a s M r) by done.
  rewrite np_index_in_range by (by eapply lookup_lt_Some). cbn [rbind].
  by rewrite Hx.
Qed.

(** ** Sums *)

Lemma np_sum_app (u v : vector) : np_sum (u ++ v) = (np_sum u + np_sum v)%Qc.
Proof.
  induction u as [|x u IH].
  - simpl. by rewrite Qcplus_0_l.
  - change (x + np_sum (u ++ v) = x + np_sum u + np_sum v)%Qc. rewrite IH. ring.
Qed.


Lemma big_sum_S n f : big_sum (Datatypes.S n) f = (big_sum n f + f n)%Qc.
Proof.
  unfold big_sum. rewrite seq_S, fmap_app, np_sum_app.
  change (np_sum (f <$> [0 + n])) with (f n + 0)%Qc. ring.
Qed.

Lemma big_sum_ext n f g :
  (∀ i, i < n → f i = g i) → big_sum n f = big_sum n g.
Proof.
  induction n as [|n IH]; intros Hfg; [done|].
  rewrite !big_sum_S, IH, Hfg by (intros; (apply Hfg || idtac); lia). done.
Qed.



(** ** The model builder, loop by loop *)

Section builder.
Context (n_sides : Z) (S : nat).
Implicit Types (T : tensor) (M : matrix) (r : vector).

Lemma roll_inner_loop s T :
  for_ (range (s + 1) (S - 1)) (λ sprime T,
    if (Z.of_nat sprime <=? Z.of_nat s + n_sides)%Z
    then set3 T 0 s sprime (/ of_int n_sides)%Qc else T) T
  = alter (alter (fill_row n_sides S s) s) 0 T.
Proof.
  trans (alter (for_ (range (s + 1) (S - 1)) (λ sprime M,
           alter (alter (λ x, if (Z.of_nat sprime <=? Z.of_nat s + n_sides)%Z
                              then (/ of_int n_sides)%Qc else x) sprime) s M)) 0 T).
  - rewrite <- for_alter_at. apply for_ext. intros j T' _.
    destruct (Z.of_nat j <=? Z.of_nat s + n_sides)%Z.
    + apply set3_alter.
    + symmetry. apply list_alter_id. intros M. apply list_alter_id.
      intros r. by apply list_alter_id.
  - apply list_alter_ext; [|done]. intros M _. apply for_alter_at.
Qed.

Lemma roll_outer_loop T :
  for_ (range 0 (S - 1)) (λ s T,
    for_ (range (s + 1) (S - 1)) (λ sprime T,
      if (Z.of_nat sprime <=? Z.of_nat s + n_sides)%Z
      then set3 T 0 s sprime (/ of_int n_sides)%Qc else T) T) T
  = alter (for_ (range 0 (S - 1)) (λ s M, alter (fill_row n_sides S s) s M)) 0 T.
Proof.
  rewrite <- for_alter_at. apply for_ext. intros s T' _.
  apply roll_inner_loop.
Qed.

Lemma residual_loop T :
  for_ (range 0 (S - 1)) (λ s T,
    set3 T 0 s (S - 1) (1 - np_sum (row T 0 s))%Qc) T
  = alter (for_ (range 0 (S - 1)) (λ s M,
      alter (λ r, <[S - 1 := (1 - np_sum r)%Qc]> r) s M)) 0 T.
Proof.
  rewrite <- for_alter_at. apply for_ext. intros s T' _.
  apply (set3_row T' 0 s (S - 1) (λ r, 1 - np_sum r)%Qc).
Qed.

Lemma fill_row_zeros s :
  fill_row n_sides S s (np_zeros1 S) = roll_partial n_sides S s.
Proof.
  apply list_eq. intros j. unfold fill_row, roll_partial.
  rewrite lookup_for_alter, list_lookup_fmap. unfold np_zeros1.
  destruct (decide (j < S)) as [Hj|Hj].
  - rewrite lookup_replicate_2, lookup_seq_lt by done. simpl. unfold reach.
    case_bool_decide; simpl; [|done].
    by destruct (Z.of_nat j <=? Z.of_nat s + n_sides)%Z.
  - rewrite lookup_seq_ge by lia.
    rewrite (proj1 (lookup_replicate_None _ _ _)) by lia. done.
Qed.

(** The roll matrix after both loops and the absorbing write. *)
Lemma roll_matrix_rows :
  alter (<[S - 1 := 1%Qc]>) (S - 1)
    (for_ (range 0 (S - 1)) (λ s M,
       alter (λ r, <[S - 1 := (1 - np_sum r)%Qc]> r) s M)
      (for_ (range 0 (S - 1)) (λ s M, alter (fill_row n_sides S s) s M)
         (np_zeros2 S S)))
  = roll_row n_sides S <$> seq 0 S.
Proof.
  apply list_eq. intros s. rewrite list_lookup_fmap.
  destruct (decide (s < S)) as [Hs|Hs].
  - rewrite lookup_seq_lt by done. simpl. unfold roll_row.
    destruct (decide (s = S - 1)) as [->|Hne].
    + rewrite list_lookup_alter_eq, !lookup_for_alter.
      rewrite bool_decide_eq_false_2 by lia.
      unfold np_zeros2. rewrite lookup_replicate_2 by done. simpl.
      by rewrite bool_decide_eq_false_2 by lia.
    + rewrite list_lookup_alter_ne, !lookup_for_alter by done.
      rewrite !bool_decide_eq_true_2 by lia.
      unfold np_zeros2. rewrite lookup_replicate_2 by done. simpl.
      by rewrite fill_row_zeros.
  - rewrite lookup_seq_ge by lia. apply lookup_ge_None.
    rewrite length_alter, !length_for_alter. unfold np_zeros2.
    rewrite length_replicate. lia.
Qed.
End builder.

Lemma length_roll_partial n_sides S s : length (roll_partial n_sides S s) = S.
Proof. unfold roll_partial. by rewrite length_fmap, length_seq. Qed.

Lemma length_terminal_row S : length (terminal_row S) = S.
Proof. unfold terminal_row, np_zeros1. by rewrite length_insert, length_replicate. Qed.

Lemma length_roll_row n_sides S s : length (roll_row n_sides S s) = S.
Proof.
  unfold roll_row. case_bool_decide.
  - by rewrite length_insert, length_roll_partial.
  - apply length_terminal_row.
Qed.

(** The builder's result in closed form, for every input on which Python
    gets as far as the loops. *)
Lemma make_transition_matrix_closed (n_sides max_score : Z) :
  n_sides ≠ 0%Z → (-1 ≤ max_score)%Z →
  let S := Z.to_nat (max_score + 2) in
  make_transition_matrix n_sides max_score
  = Ok [ fmap (M := list) clamp <$> (roll_row n_sides S <$> seq 0 S);
         fmap (M := list) clamp <$> replicate S (terminal_row S) ].
Proof.
  intros Hn HM S. unfold make_transition_matrix, np_dim, py_inv.
  rewrite (proj2 (Z.ltb_ge _ _)) by lia.
  rewrite (proj2 (Z.eqb_neq _ _)) by done. cbn [rbind]. fold S.
  rewrite roll_outer_loop, residual_loop.
  change (np_zeros3 2 S S) with [np_zeros2 S S; np_zeros2 S S].
  cbn [alter list_alter].
  assert (HS : (max_score + 2 - 1)%Z = Z.of_nat (S - 1)) by (unfold S; lia).
  assert (HS1 : S - 1 < S) by (unfold S; lia).
  rewrite HS. change 0%Z with (Z.of_nat 0).
  erewrite (setitem3_in_range _ 0 (S - 1) (S - 1) _ _ (np_zeros1 S));
    [|reflexivity| |].
  2:{ rewrite !lookup_for_alter. unfold np_zeros2.
      rewrite lookup_replicate_2 by done. simpl.
      by rewrite bool_decide_eq_false_2 by lia. }
  2:{ unfold np_zeros1. by rewrite length_replicate. }
  cbn [rbind]. unfold set3. cbn [alter list_alter].
  rewrite roll_matrix_rows. unfold clamp_negative. cbn [fmap list_fmap].
  do 3 f_equal. unfold np_zeros2, terminal_row.
  by rewrite fmap_replicate.
Qed.

(** ** Arithmetic on scalars *)

Lemma of_nat_0 : of_nat 0 = 0%Qc.
Proof. apply Z2Qc_inj_0. Qed.

Lemma of_nat_S k : of_nat (Datatypes.S k) = (of_nat k + 1)%Qc.
Proof.
  unfold of_nat. rewrite Nat2Z.inj_succ, <- Z.add_1_r, Z2Qc_inj_add.
  by rewrite Z2Qc_inj_1.
Qed.

Lemma of_nat_of_int k : of_nat k = of_int (Z.of_nat k).
Proof. reflexivity. Qed.

Lemma of_int_pos z : (0 < z)%Z → (0 < of_int z)%Qc.
Proof.
  intros Hz. unfold of_int. rewrite <- Z2Qc_inj_0.
  by apply (proj1 (Z2Qc_inj_lt 0 z)).
Qed.

Lemma of_int_nonzero z : z ≠ 0%Z → of_int z ≠ 0%Qc.
Proof.
  intros Hz Heq. apply Hz. apply Z2Qc_inj. unfold of_int in Heq.
  by rewrite Z2Qc_inj_0.
Qed.

(** [k/n] lies in [0,1] when [0 <= k <= n]. *)
Lemma ratio_bounds (k n : Z) :
  (0 ≤ k ≤ n)%Z → (0 < n)%Z →
  (0 ≤ of_int k * / of_int n)%Qc ∧ (of_int k * / of_int n ≤ 1)%Qc.
Proof.
  intros Hk Hn. pose proof (of_int_pos n Hn) as Hpos.
  pose proof (Qcinv_pos _ Hpos) as Hinv. split.
  - apply Qcmult_nonneg_nonneg; [|by apply Qclt_le_weak].
    unfold of_int. rewrite <- Z2Qc_inj_0. apply (proj1 (Z2Qc_inj_le 0 k)). lia.
  - rewrite <- (Qcmult_inv_r (of_int n)) by (apply of_int_nonzero; lia).
    apply Qcmult_le_mono_nonneg_r; [by apply Qclt_le_weak|].
    apply (proj1 (Z2Qc_inj_le k n)). lia.
Qed.

Lemma complement_bounds (x : Qc) :
  (0 ≤ x)%Qc → (x ≤ 1)%Qc → (0 ≤ 1 - x)%Qc ∧ (1 - x ≤ 1)%Qc.
Proof.
  intros H0 H1. split.
  - apply (Qcplus_le_mono_r _ _ x).
    replace (0 + x)%Qc with x by ring. by replace (1 - x + x)%Qc with 1%Qc by ring.
  - apply (Qcplus_le_mono_r _ _ x).
    replace (1 - x + x)%Qc with (1 + 0)%Qc by ring. by apply Qcplus_le_mono_l.
Qed.

Lemma clamp_nonneg x : (0 ≤ x)%Qc → clamp x = x.
Proof.
  intros Hx. unfold clamp, Qc_ltb. rewrite bool_decide_eq_false_2; [done|].
  by apply Qcle_not_lt.
Qed.

Lemma clamp_row (r : vector) : Forall (λ x, (0 ≤ x)%Qc) r → clamp <$> r = r.
Proof.
  induction 1 as [|x r Hx _ IH]; [done|].
  rewrite fmap_cons, IH, clamp_nonneg; done.
Qed.

(** The sum of a constant over an interval of indices. *)
Lemma big_sum_interval N lo hi (p : Qc) :
  lo ≤ hi → hi ≤ N →
  big_sum N (λ j, if bool_decide (lo ≤ j < hi) then p else 0%Qc)
  = (of_nat (hi - lo) * p)%Qc.
Proof.
  revert lo hi. induction N as [|N IH]; intros lo hi Hlo Hhi.
  - replace (hi - lo) with 0 by lia. rewrite of_nat_0. unfold big_sum. simpl. ring.
  - rewrite big_sum_S. destruct (decide (hi ≤ N)) as [Hle|Hgt].
    + rewrite IH by done. rewrite bool_decide_eq_false_2 by lia. ring.
    + assert (hi = Datatypes.S N) as -> by lia.
      destruct (decide (lo ≤ N)) as [HloN|HloN].
      * rewrite (big_sum_ext N _
          (λ j, if bool_decide (lo ≤ j < N) then p else 0%Qc)).
        2:{ intros j Hj. do 2 case_bool_decide; (done || lia). }
        rewrite IH by lia. rewrite bool_decide_eq_true_2 by lia.
        replace (Datatypes.S N - lo) with (Datatypes.S (N - lo)) by lia.
        rewrite of_nat_S. ring.
      * rewrite (big_sum_ext N _ (λ j, if bool_decide (N ≤ j < N) then p else 0%Qc)).
        2:{ intros j Hj. do 2 case_bool_decide; (done || lia). }
        rewrite IH by lia. rewrite bool_decide_eq_false_2 by lia.
        replace (Datatypes.S N - lo) with 0 by lia.
        replace (N - N) with 0 by lia. ring.
Qed.

(** ** The transition tensor for a real die *)

Section die.
Context (n_sides : Z) (S : nat) (Hn : (0 < n_sides)%Z).

Lemma reach_interval s j :
  reach n_sides S s j
  = bool_decide (s + 1 ≤ j < Nat.min (S - 1) (s + Z.to_nat n_sides + 1)).
Proof.
  unfold reach. destruct (Z.leb_spec (Z.of_nat j) (Z.of_nat s + n_sides));
    case_bool_decide; simpl; symmetry;
    (apply bool_decide_eq_true_2 || apply bool_decide_eq_false_2); lia.
Qed.

Lemma np_sum_roll_partial s :
  s < S →
  np_sum (roll_partial n_sides S s)
  = (of_nat (safe_faces n_sides S s) * / of_int n_sides)%Qc.
Proof.
  intros Hs. unfold roll_partial. fold (big_sum S (λ j,
    if reach n_sides S s j then (/ of_int n_sides)%Qc else 0%Qc)).
  rewrite (big_sum_ext S _ (λ j,
    if bool_decide (s + 1 ≤ j < Nat.max (s + 1) (Nat.min (S - 1) (s + Z.to_nat n_sides + 1)))
    then (/ of_int n_sides)%Qc else 0%Qc)).
  2:{ intros j _. rewrite reach_interval.
      do 2 case_bool_decide; (done || lia). }
  rewrite big_sum_interval by lia. unfold safe_faces. do 2 f_equal. lia.
Qed.

Lemma safe_faces_le s : (Z.of_nat (safe_faces n_sides S s) ≤ n_sides)%Z.
Proof. unfold safe_faces. lia. Qed.

(** The probability of going bust from [s], as the code computes it. *)
Lemma residual_bounds s :
  s < S →
  (0 ≤ 1 - np_sum (roll_partial n_sides S s))%Qc
  ∧ (1 - np_sum (roll_partial n_sides S s) ≤ 1)%Qc.
Proof.
  intros Hs. rewrite np_sum_roll_partial, of_nat_of_int by done.
  destruct (ratio_bounds (Z.of_nat (safe_faces n_sides S s)) n_sides) as [H0 H1];
    [pose proof (safe_faces_le s); lia|done|].
  by apply complement_bounds.
Qed.

Lemma inv_sides_bounds : (0 ≤ / of_int n_sides)%Qc ∧ (/ of_int n_sides ≤ 1)%Qc.
Proof.
  destruct (ratio_bounds 1 n_sides) as [H0 H1]; [lia|done|].
  unfold of_int in *. rewrite Z2Qc_inj_1, Qcmult_1_l in H0, H1. done.
Qed.

Lemma roll_partial_bounds s :
  Forall (λ x, (0 ≤ x)%Qc ∧ (x ≤ 1)%Qc) (roll_partial n_sides S s).
Proof.
  unfold roll_partial. apply Forall_fmap, Forall_forall. intros j _. simpl.
  destruct (reach n_sides S s j); [apply inv_sides_bounds|done].
Qed.

Lemma terminal_row_bounds : Forall (λ x, (0 ≤ x)%Qc ∧ (x ≤ 1)%Qc) (terminal_row S).
Proof.
  unfold terminal_row, np_zeros1. apply Forall_insert; [|done].
  by apply Forall_replicate.
Qed.

Lemma roll_row_bounds s :
  Forall (λ x, (0 ≤ x)%Qc ∧ (x ≤ 1)%Qc) (roll_row n_sides S s).
Proof.
  unfold roll_row. case_bool_decide.
  - apply Forall_insert; [apply roll_partial_bounds|apply residual_bounds; lia].
  - apply terminal_row_bounds.
Qed.
End die.

Lemma clamp_matrix (M : matrix) :
  Forall (Forall (λ x, (0 ≤ x)%Qc)) M → fmap (M := list) clamp <$> M = M.
Proof.
  induction 1 as [|r M Hr _ IH]; [done|].
  rewrite fmap_cons, IH, clamp_row; done.
Qed.

Lemma make_transition_matrix_die (n_sides max_score : Z) :
  (0 < n_sides)%Z → (-1 ≤ max_score)%Z →
  let S := Z.to_nat (max_score + 2) in
  make_transition_matrix n_sides max_score
  = Ok [ roll_row n_sides S <$> seq 0 S; replicate S (terminal_row S) ].
Proof.
  intros Hn HM S. rewrite make_transition_matrix_closed by lia. fold S.
  rewrite !clamp_matrix; [done| |].
  - apply Forall_replicate.
    eapply List.Forall_impl; [|apply terminal_row_bounds]. by intros x [? _].
  - apply Forall_fmap, Forall_forall. intros s _. simpl.
    eapply List.Forall_impl; [|by apply roll_row_bounds]. by intros x [? _].
Qed.

Lemma np_sum_zeros n : np_sum (np_zeros1 n) = 0%Qc.
Proof.
  induction n as [|n IH]; [done|].
  change (0 + np_sum (np_zeros1 n) = 0)%Qc. rewrite IH. ring.
Qed.


Lemma lookup_terminal_row S j :
  j < S → terminal_row S !! j = Some (if bool_decide (j = S - 1) then 1%Qc else 0%Qc).
Proof.
  intros Hj. unfold terminal_row, np_zeros1. case_bool_decide as Heq.
  - rewrite Heq. apply list_lookup_insert_eq. rewrite length_replicate. lia.
  - rewrite list_lookup_insert_ne by done. by apply lookup_replicate_2.
Qed.


(** Shape and row views of the closed form. *)
Section closed_form.
Context (n_sides : Z) (S : nat).

Local Abbreviation T :=
  [ roll_row n_sides S <$> seq 0 S; replicate S (terminal_row S) ].

Lemma closed_row_roll s : s < S → row T 0 s = roll_row n_sides S s.
Proof.
  intros Hs. apply (row_lookup T 0 s (roll_row n_sides S <$> seq 0 S)); [done|].
  by rewrite list_lookup_fmap, lookup_seq_lt.
Qed.

Lemma closed_row_stay s : s < S → row T 1 s = terminal_row S.
Proof.
  intros Hs. apply (row_lookup T 1 s (replicate S (terminal_row S))); [done|].
  by apply lookup_replicate_2.
Qed.

Lemma closed_get3 a s s' :
  s < S → get3 T a s s' = row T a s !! s'.
Proof.
  intros Hs. destruct a as [|[|a]]; [| |done].
  - rewrite closed_row_roll by done. unfold get3, get2, get1. simpl.
    by rewrite list_lookup_fmap, lookup_seq_lt.
  - rewrite closed_row_stay by done. unfold get3, get2, get1. simpl.
    by rewrite lookup_replicate_2.
Qed.

Lemma closed_has_shape : has_shape T 2 S.
Proof.
  split; [done|]. intros [|[|a]] Ha; [| |lia].
  - split; [simpl; by rewrite length_fmap, length_seq|].
    intros s Hs. rewrite closed_row_roll by done. apply length_roll_row.
  - split; [simpl; by rewrite length_replicate|].
    intros s Hs. rewrite closed_row_stay by done. apply length_terminal_row.
Qed.


End closed_form.

(** ** Deciding equalities between concrete scalars *)

Lemma Qc_eq_by_eval (x y : Qc) : Qeq_bool x y = true → x = y.
Proof. intros H. apply Qc_is_canon. by apply Qeq_bool_eq. Qed.

Lemma Some_eq_by_eval (x y : Qc) : Qeq_bool x y = true → Some x = Some y.
Proof. intros H. f_equal. by apply Qc_eq_by_eval. Qed.

(** Settles [e = Some q] and [e = q] for closed [e] by evaluation. *)
Ltac qc_eval :=
  vm_compute;
  lazymatch goal with
  | |- Some _ = Some _ => apply Some_eq_by_eval; vm_compute; reflexivity
  | |- @eq Qc _ _ => apply Qc_eq_by_eval; vm_compute; reflexivity
  end.

(** ** The reward matrix *)

Lemma make_reward_matrix_rows (max_score : Z) :
  (-2 ≤ max_score)%Z →
  let S := Z.to_nat (max_score + 2) in
  ∃ R, make_reward_matrix max_score = Ok R ∧ length R = S ∧
       ∀ s, s < S →
         R !! s = Some (if bool_decide (s < S - 1) then [0%Qc; of_nat s]
                        else [0%Qc; 0%Qc]).
Proof.
  intros HM S. eexists. unfold make_reward_matrix, np_dim.
  rewrite (proj2 (Z.ltb_ge _ _)) by lia. cbn [rbind]. fold S.
  split; [reflexivity|]. split.
  - unfold set2. rewrite length_for_alter. unfold np_zeros2.
    by rewrite length_replicate.
  - intros s Hs. unfold set2. rewrite lookup_for_alter.
    unfold np_zeros2. rewrite lookup_replicate_2 by done. simpl.
    do 2 case_bool_decide; (done || lia).
Qed.

(** ** Outcome of the builder on every pair of integers *)

Lemma make_transition_matrix_outcome (n_sides max_score : Z) :
  ((max_score < -2)%Z
     ∧ make_transition_matrix n_sides max_score = Raise ValueError)
  ∨ ((-2 ≤ max_score)%Z ∧ n_sides = 0%Z
     ∧ make_transition_matrix n_sides max_score = Raise ZeroDivisionError)
  ∨ (max_score = (-2)%Z ∧ n_sides ≠ 0%Z
     ∧ make_transition_matrix n_sides max_score = Raise IndexError)
  ∨ ((-1 ≤ max_score)%Z ∧ n_sides ≠ 0%Z
     ∧ returns (make_transition_matrix n_sides max_score)).
Proof.
  destruct (Z.ltb_spec max_score (-2)) as [Hlt|Hge].
  { left. split; [done|]. unfold make_transition_matrix, np_dim.
    by rewrite (proj2 (Z.ltb_lt _ _)) by lia. }
  right. destruct (Z.eqb_spec n_sides 0) as [->|Hn].
  { left. do 2 (split; [done|]). unfold make_transition_matrix, np_dim.
    by rewrite (proj2 (Z.ltb_ge _ _)) by lia. }
  right. destruct (Z.eqb_spec max_score (-2)) as [->|HM].
  { left. do 2 (split; [done|]). unfold make_transition_matrix, py_inv.
    by rewrite (proj2 (Z.eqb_neq _ _)) by done. }
  right. do 2 (split; [lia || done|]). eexists.
  apply make_transition_matrix_closed; [done|lia].
Qed.

Lemma build_model_outcome (n_sides max_score : Z) :
  ((max_score < -2)%Z ∧ build_model n_sides max_score = Raise ValueError)
  ∨ ((-2 ≤ max_score)%Z ∧ n_sides = 0%Z
     ∧ build_model n_sides max_score = Raise ZeroDivisionError)
  ∨ (max_score = (-2)%Z ∧ n_sides ≠ 0%Z
     ∧ build_model n_sides max_score = Raise IndexError)
  ∨ ((-1 ≤ max_score)%Z ∧ n_sides ≠ 0%Z
     ∧ returns (build_model n_sides max_score)).
Proof.
  unfold build_model.
  destruct (make_transition_matrix_outcome n_sides max_score)
    as [[? ->]|[(? & ? & ->)|[(? & ? & ->)|(? & ? & [T ->])]]]; auto 10.
  do 3 right. do 2 (split; [done|]).
  destruct (make_reward_matrix_rows max_score) as (R & -> & _); [lia|].
  by eexists.
Qed.

(** ** The builder on doubles, loop by loop *)

Lemma F64_set3_alter (T : F64.tensor) a s s' v :
  F64.set3 T a s s' v = alter (alter (alter (λ _, v) s') s) a T.
Proof.
  unfold F64.set3. apply list_alter_ext; [|done]. intros M _.
  apply list_alter_ext; [|done]. intros r _. apply list_insert_alter.
Qed.

Lemma alter_out_of_range {A} (f : A → A) (l : list A) i :
  length l ≤ i → alter f i l = l.
Proof.
  revert i. induction l as [|x l IH]; intros [|i] ?; simpl in *; try done; try lia.
  f_equal. apply IH. lia.
Qed.

Lemma F64_set3_row (T : F64.tensor) a s s' (F : F64.vector → float) :
  F64.set3 T a s s' (F (F64.row T a s))
  = alter (alter (λ r, <[s':=F r]> r) s) a T.
Proof.
  unfold F64.set3, F64.row.
  destruct (T !! a) as [M|] eqn:HM; simpl.
  - apply list_alter_ext; [|done]. intros M' HM'.
    assert (M' = M) as -> by congruence.
    destruct (M !! s) as [r|] eqn:Hr; simpl.
    + apply list_alter_ext; [|done]. intros r' Hr'.
      by assert (r' = r) as -> by congruence.
    + apply lookup_ge_None in Hr. by rewrite !alter_out_of_range.
  - apply lookup_ge_None in HM. by rewrite !alter_out_of_range.
Qed.

Lemma F64_row_lookup (T : F64.tensor) a s M r :
  T !! a = Some M → M !! s = Some r → F64.row T a s = r.
Proof. intros HM Hr. unfold F64.row. rewrite HM. simpl. by rewrite Hr. Qed.

Lemma F64_setitem3_in_range (T : F64.tensor) a s s' v M r :
  T !! a = Some M → M !! s = Some r → s' < length r →
  F64.setitem3 T (Z.of_nat a) (Z.of_nat s) (Z.of_nat s') v
  = Ok (F64.set3 T a s s' v).
Proof.
  intros HM Hr Hs'. unfold F64.setitem3.
  rewrite np_index_in_range by (by eapply lookup_lt_Some). cbn [rbind].
  rewrite HM. change (default [] (Some M)) with M.
  rewrite np_index_in_range by (by eapply lookup_lt_Some). cbn [rbind].
  rewrite (F64_row_lookup T a s M r) by done.
  by rewrite np_index_in_range.
Qed.

Section builder_on_doubles.
Context (n_sides : Z) (S : nat).
Implicit Types (T : F64.tensor) (M : F64.matrix) (r : F64.vector).

Local Abbreviation p := (PrimFloat.div 1%float (F64.of_int n_sides)).

Lemma F64_roll_inner_loop s T :
  for_ (range (s + 1) (S - 1)) (λ sprime T,
    if (Z.of_nat sprime <=? Z.of_nat s + n_sides)%Z
    then F64.set3 T 0 s sprime p else T) T
  = alter (alter (F64.fill_row n_sides S s) s) 0 T.
Proof.
  trans (alter (for_ (range (s + 1) (S - 1)) (λ sprime M,
           alter (alter (λ x, if (Z.of_nat sprime <=? Z.of_nat s + n_sides)%Z
                              then p else x) sprime) s M)) 0 T).
  - rewrite <- for_alter_at. apply for_ext. intros j T' _.
    destruct (Z.of_nat j <=? Z.of_nat s + n_sides)%Z.
    + apply F64_set3_alter.
    + symmetry. apply list_alter_id. intros M. apply list_alter_id.
      intros r. by apply list_alter_id.
  - apply list_alter_ext; [|done]. intros M _. apply for_alter_at.
Qed.

Lemma F64_roll_outer_loop T :
  for_ (range 0 (S - 1)) (λ s T,
    for_ (range (s + 1) (S - 1)) (λ sprime T,
      if (Z.of_nat sprime <=? Z.of_nat s + n_sides)%Z
      then F64.set3 T 0 s sprime p else T) T) T
  = alter (for_ (range 0 (S - 1)) (λ s M, alter (F64.fill_row n_sides S s) s M)) 0 T.
Proof.
  rewrite <- for_alter_at. apply for_ext. intros s T' _.
  apply F64_roll_inner_loop.
Qed.

Lemma F64_residual_loop T :
  for_ (range 0 (S - 1)) (λ s T,
    F64.set3 T 0 s (S - 1) (PrimFloat.sub 1%float (F64.np_sum (F64.row T 0 s)))) T
  = alter (for_ (range 0 (S - 1)) (λ s M,
      alter (λ r, <[S - 1 := PrimFloat.sub 1%float (F64.np_sum r)]> r) s M)) 0 T.
Proof.
  rewrite <- for_alter_at. apply for_ext. intros s T' _.
  apply (F64_set3_row T' 0 s (S - 1) (λ r, PrimFloat.sub 1%float (F64.np_sum r))).
Qed.

Lemma F64_fill_row_zeros s :
  F64.fill_row n_sides S s (F64.np_zeros1 S) = F64.roll_partial n_sides S s.
Proof.
  apply list_eq. intros j. unfold F64.fill_row, F64.roll_partial.
  rewrite lookup_for_alter, list_lookup_fmap. unfold F64.np_zeros1.
  destruct (decide (j < S)) as [Hj|Hj].
  - rewrite lookup_replicate_2, lookup_seq_lt by done. simpl. unfold reach.
    case_bool_decide; simpl; [|done].
    by destruct (Z.of_nat j <=? Z.of_nat s + n_sides)%Z.
  - rewrite lookup_seq_ge by lia.
    rewrite (proj1 (lookup_replicate_None _ _ _)) by lia. done.
Qed.

Lemma F64_roll_matrix_rows :
  alter (<[S - 1 := 1%float]>) (S - 1)
    (for_ (range 0 (S - 1)) (λ s M,
       alter (λ r, <[S - 1 := PrimFloat.sub 1%float (F64.np_sum r)]> r) s M)
      (for_ (range 0 (S - 1)) (λ s M, alter (F64.fill_row n_sides S s) s M)
         (F64.np_zeros2 S S)))
  = F64.roll_row n_sides S <$> seq 0 S.
Proof.
  apply list_eq. intros s. rewrite list_lookup_fmap.
  destruct (decide (s < S)) as [Hs|Hs].
  - rewrite lookup_seq_lt by done. simpl. unfold F64.roll_row.
    destruct (decide (s = S - 1)) as [->|Hne].
    + rewrite list_lookup_alter_eq, !lookup_for_alter.
      rewrite bool_decide_eq_false_2 by lia.
      unfold F64.np_zeros2. rewrite lookup_replicate_2 by done. simpl.
      by rewrite bool_decide_eq_false_2 by lia.
    + rewrite list_lookup_alter_ne, !lookup_for_alter by done.
      rewrite !bool_decide_eq_true_2 by lia.
      unfold F64.np_zeros2. rewrite lookup_replicate_2 by done. simpl.
      by rewrite F64_fill_row_zeros.
  - rewrite lookup_seq_ge by lia. apply lookup_ge_None.
    rewrite length_alter, !length_for_alter. unfold F64.np_zeros2.
    rewrite length_replicate. lia.
Qed.
End builder_on_doubles.


(** The builder's result on doubles in closed form. *)
Lemma F64_make_transition_matrix_closed (n_sides max_score : Z) :
  n_sides ≠ 0%Z → (-1 ≤ max_score)%Z →
  let S := Z.to_nat (max_score + 2) in
  F64.make_transition_matrix n_sides max_score
  = Ok [ fmap (M := list) F64.clamp <$> (F64.roll_row n_sides S <$> seq 0 S);
         fmap (M := list) F64.clamp <$> replicate S (F64.terminal_row S) ].
Proof.
  intros Hn HM S. unfold F64.make_transition_matrix, np_dim, F64.py_inv.
  rewrite (proj2 (Z.ltb_ge _ _)) by lia.
  rewrite (proj2 (Z.eqb_neq _ _)) by done. cbn [rbind]. fold S.
  rewrite F64_roll_outer_loop, F64_residual_loop.
  change (F64.np_zeros3 2 S S) with [F64.np_zeros2 S S; F64.np_zeros2 S S].
  cbn [alter list_alter].
  assert (HS : (max_score + 2 - 1)%Z = Z.of_nat (S - 1)) by (unfold S; lia).
  assert (HS1 : S - 1 < S) by (unfold S; lia).
  rewrite HS. change 0%Z with (Z.of_nat 0).
  erewrite (F64_setitem3_in_range _ 0 (S - 1) (S - 1) _ _ (F64.np_zeros1 S));
    [|reflexivity| |].
  2:{ rewrite !lookup_for_alter. unfold F64.np_zeros2.
      rewrite lookup_replicate_2 by done. simpl.
      by rewrite bool_decide_eq_false_2 by lia. }
  2:{ unfold F64.np_zeros1. by rewrite length_replicate. }
  cbn [rbind]. unfold F64.set3. cbn [alter list_alter].
  rewrite F64_roll_matrix_rows. unfold F64.clamp_negative. cbn [fmap list_fmap].
  do 3 f_equal. unfold F64.np_zeros2, F64.terminal_row.
  by rewrite fmap_replicate.
Qed.


(** ** Sums of zeros on doubles *)

Lemma F64_sum_from_zeros n :
  F64.sum_from 0%float (replicate n 0%float) = 0%float.
Proof. induction n as [|n IH]; [done|]. simpl. apply IH. Qed.

Lemma F64_add_blocks_zeros k m :
  8 * k ≤ m →
  F64.add_blocks k (replicate 8 0%float) (replicate m 0%float)
  = replicate 8 0%float.
Proof.
  revert m. induction k as [|k IH]; intros m Hm; [done|].
  cbn [F64.add_blocks]. rewrite take_replicate, drop_replicate.
  replace (8 `min` m) with 8 by lia.
  change (zip_with PrimFloat.add (replicate 8 0%float) (replicate 8 0%float))
    with (replicate 8 0%float).
  apply IH. lia.
Qed.

Lemma F64_unrolled_sum_zeros n :
  8 ≤ n → F64.unrolled_sum (replicate n 0%float) = 0%float.
Proof.
  intros Hn. unfold F64.unrolled_sum.
  rewrite length_replicate, take_replicate, !drop_replicate.
  replace (8 `min` n) with 8 by lia.
  rewrite F64_add_blocks_zeros.
  - apply F64_sum_from_zeros.
  - pose proof (Nat.div_mod_eq n 8). pose proof (Nat.mod_upper_bound n 8).
    assert (1 ≤ n / 8) by (apply Nat.div_le_lower_bound; lia). lia.
Qed.

Lemma F64_pairwise_sum_zeros fuel n :
  F64.pairwise_sum fuel (replicate n 0%float) = 0%float.
Proof.
  revert n. induction fuel as [|fuel IH]; intros n.
  - cbn [F64.pairwise_sum]. rewrite length_replicate.
    destruct (Nat.ltb_spec n 8); [apply F64_sum_from_zeros|].
    destruct (n <=? 128); by apply F64_unrolled_sum_zeros.
  - cbn [F64.pairwise_sum]. rewrite length_replicate.
    destruct (Nat.ltb_spec n 8); [apply F64_sum_from_zeros|].
    destruct (n <=? 128); [by apply F64_unrolled_sum_zeros|].
    by rewrite take_replicate, drop_replicate, !IH.
Qed.

Lemma F64_np_sum_zeros n : F64.np_sum (F64.np_zeros1 n) = 0%float.
Proof.
  unfold F64.np_sum, F64.np_zeros1. by rewrite F64_pairwise_sum_zeros.
Qed.

(** From [max_score] every face of the die goes over it: no cell of the row
    is written by the first loop nest. *)
Lemma F64_roll_partial_last (n_sides : Z) (S : nat) :
  F64.roll_partial n_sides S (S - 2) = F64.np_zeros1 S.
Proof.
  unfold F64.roll_partial, F64.np_zeros1.
  apply list_eq. intros j. rewrite list_lookup_fmap.
  destruct (decide (j < S)) as [Hj|Hj].
  - rewrite lookup_seq_lt, lookup_replicate_2 by done. simpl. unfold reach.
    destruct (decide (S - 2 + 1 ≤ j < S - 1)).
    + exfalso. lia.
    + by rewrite bool_decide_eq_false_2.
  - rewrite lookup_seq_ge by lia. symmetry. apply lookup_replicate_None. lia.
Qed.

Lemma F64_lookup_terminal_row (S s' : nat) :
  s' < S →
  F64.terminal_row S !! s'
  = Some (if bool_decide (s' = S - 1) then 1%float else 0%float).
Proof.
  intros Hs'. unfold F64.terminal_row, F64.np_zeros1. case_bool_decide as Heq.
  - rewrite Heq. apply list_lookup_insert_eq. rewrite length_replicate. lia.
  - rewrite list_lookup_insert_ne by done. by apply lookup_replicate_2.
Qed.

Lemma F64_clamp_terminal_row (S : nat) :
  F64.clamp <$> F64.terminal_row S = F64.terminal_row S.
Proof.
  unfold F64.terminal_row, F64.np_zeros1.
  by rewrite list_fmap_insert, fmap_replicate.
Qed.

Lemma F64_roll_row_last (n_sides : Z) (S : nat) :
  2 ≤ S → F64.roll_row n_sides S (S - 2) = F64.terminal_row S.
Proof.
  intros HS. unfold F64.roll_row. rewrite bool_decide_eq_true_2 by lia.
  by rewrite F64_roll_partial_last, F64_np_sum_zeros.
Qed.

(** ** Checks by evaluation *)

Lemma each_pair_spec N P (n M : Z) :
  each_pair N P = true →
  (1 ≤ n ≤ Z.of_nat N)%Z → (1 ≤ M ≤ Z.of_nat N)%Z → P n M = true.
Proof.
  unfold each_pair. intros Hall Hn HM.
  rewrite forallb_forall in Hall.
  specialize (Hall (Z.to_nat n)). rewrite forallb_forall in Hall.
  specialize (Hall ltac:(apply in_seq; lia) (Z.to_nat M) ltac:(apply in_seq; lia)).
  by rewrite !Z2Nat.id in Hall by lia.
Qed.

Lemma forallb_lookup {A} (f : A → bool) (l : list A) i x :
  forallb f l = true → l !! i = Some x → f x = true.
Proof.
  intros Hall Hx. rewrite forallb_forall in Hall.
  apply Hall, list_elem_of_In. by eapply list_elem_of_lookup_2.
Qed.

Lemma within_b_spec x q tol : F64.within_b x q tol = true → F64.within x q tol.
Proof.
  unfold F64.within_b, F64.within. destruct (F64.to_Q x) as [v|]; [|done].
  intros H. exists v. split; [done|]. by apply Qle_bool_iff.
Qed.

Lemma row_close_b_spec tol r : row_close_b tol r = true → row_close tol r.
Proof.
  unfold row_close_b, row_close. intros [Hsum Hexact]%andb_prop.
  split; [by apply within_b_spec|].
  destruct (F64.exact_sum r) as [m|]; [|done].
  exists m. split; [done|]. by apply Qle_bool_iff.
Qed.


Lemma rows_close_spec tol n_sides max_score T :
  rows_close tol n_sides max_score = true →
  F64.make_transition_matrix n_sides max_score = Ok T →
  let S := Z.to_nat (max_score + 2) in
  length T = 2
  ∧ ∀ a M, T !! a = Some M →
      length M = S
      ∧ ∀ s r, M !! s = Some r →
          length r = S ∧ row_close tol r
          ∧ ∀ s' x, r !! s' = Some x → unit_interval x.
Proof.
  intros Hall HT S. unfold rows_close in Hall. rewrite HT in Hall.
  fold S in Hall.
  apply andb_prop in Hall as [HlenT Hall]. apply Nat.eqb_eq in HlenT.
  split; [done|]. intros a M HM.
  pose proof (forallb_lookup _ _ _ _ Hall HM) as HMok. simpl in HMok.
  apply andb_prop in HMok as [HlenM Hrows]. apply Nat.eqb_eq in HlenM.
  split; [done|]. intros s r Hr.
  pose proof (forallb_lookup _ _ _ _ Hrows Hr) as Hrok. simpl in Hrok.
  apply andb_prop in Hrok as [Hrok Hcells].
  apply andb_prop in Hrok as [Hlenr Hsum]. apply Nat.eqb_eq in Hlenr.
  split; [done|]. split; [by apply row_close_b_spec|].
  intros s' x Hx. by apply (forallb_lookup _ _ _ _ Hcells Hx).
Qed.


Lemma rows_close_on_grid : each_pair 32 (rows_close (1 # 10 ^ 9)) = true.
Proof. vm_cast_no_check (eq_refl true). Qed.

(** * The properties of the specification *)

(** ** Model builder *)

(** C5: for positive [n_sides] and [max_score] the terminal state, index
    [max_score + 1], is absorbing under CONTINUE and under STOP. *)
Theorem C5_terminal_absorbing (n_sides max_score : Z) :
  (0 < n_sides)%Z → (0 < max_score)%Z →
  let terminal := Z.to_nat (max_score + 1) in
  ∃ T, make_transition_matrix n_sides max_score = Ok T
     ∧ get3 T CONTINUE terminal terminal = Some 1%Qc
     ∧ get3 T STOP terminal terminal = Some 1%Qc.
Proof.
  intros Hn HM terminal. eexists.
  split; [by apply make_transition_matrix_die; lia|].
  set (S := Z.to_nat (max_score + 2)).
  assert (Hterm : terminal = S - 1) by (unfold terminal, S; lia).
  assert (terminal < S) by (unfold terminal, S; lia).
  unfold CONTINUE, STOP. rewrite !closed_get3 by done.
  rewrite closed_row_roll, closed_row_stay by done.
  unfold roll_row. rewrite bool_decide_eq_false_2 by lia.
  rewrite lookup_terminal_row by done.
  by rewrite bool_decide_eq_true_2.
Qed.

Lemma C5_witness :
  ∃ T, make_transition_matrix 20 21 = Ok T
     ∧ get3 T CONTINUE 22 22 = Some 1%Qc
     ∧ get3 T STOP 22 22 = Some 1%Qc.
Proof. apply (C5_terminal_absorbing 20 21); lia. Defined.





(** C7: for positive [n_sides] and [max_score] the reward matrix has
    [R[s, STOP] = s] for every non-terminal state, [R[terminal, STOP] = 0],
    and [R[s, CONTINUE] = 0] for every state, the terminal one included. *)
Theorem C7_reward_matrix (n_sides max_score : Z) :
  (0 < n_sides)%Z → (0 < max_score)%Z →
  let terminal := Z.to_nat (max_score + 1) in
  ∃ T R, build_model n_sides max_score = Ok (T, R)
     ∧ (∀ s, s < terminal → get2 R s STOP = Some (of_nat s))
     ∧ get2 R terminal STOP = Some 0%Qc
     ∧ (∀ s, s ≤ terminal → get2 R s CONTINUE = Some 0%Qc).
Proof.
  intros Hn HM terminal. unfold build_model.
  rewrite make_transition_matrix_die by lia. cbn [rbind].
  destruct (make_reward_matrix_rows max_score) as (R & -> & HlenR & HR); [lia|].
  cbn [rbind]. do 2 eexists. split; [reflexivity|].
  set (S := Z.to_nat (max_score + 2)) in *.
  assert (Hterm : terminal = S - 1) by (unfold terminal, S; lia).
  assert (0 < S) by (unfold S; lia).
  unfold get2, get1, STOP, CONTINUE. repeat split.
  - intros s Hs. rewrite HR by lia. by rewrite bool_decide_eq_true_2 by lia.
  - rewrite HR by lia. by rewrite bool_decide_eq_false_2 by lia.
  - intros s Hs. rewrite HR by lia. by case_bool_decide.
Qed.

Lemma C7_witness :
  ∃ T R, build_model 20 21 = Ok (T, R)
     ∧ (∀ s, s < 22 → get2 R s STOP = Some (of_nat s))
     ∧ get2 R 22 STOP = Some 0%Qc
     ∧ (∀ s, s ≤ 22 → get2 R s CONTINUE = Some 0%Qc).
Proof. apply (C7_reward_matrix 20 21); lia. Defined.

(** C8 (amended): in the small example [n_sides = 4], [max_score = 5] the
    row of state 0 under CONTINUE has [0.25] at indices 1 to 4 and [0] at
    index 5; the state space has 7 states, index 5 is the ordinary state
    "sum 5" and index 6 is the terminal state. *)
Theorem C8_small_example :
  ∃ T, make_transition_matrix 4 5 = Ok T
     ∧ get3 T CONTINUE 0 1 = Some (Q2Qc (1 # 4))
     ∧ get3 T CONTINUE 0 2 = Some (Q2Qc (1 # 4))
     ∧ get3 T CONTINUE 0 3 = Some (Q2Qc (1 # 4))
     ∧ get3 T CONTINUE 0 4 = Some (Q2Qc (1 # 4))
     ∧ get3 T CONTINUE 0 5 = Some 0%Qc
     ∧ get3 T CONTINUE 0 6 = Some 0%Qc
     ∧ num_states T = 7
     ∧ absorbing T 6.
Proof.
  eexists. split; [by apply make_transition_matrix_die|].
  repeat split; try qc_eval.
  intros [|[|a]] Ha; [qc_eval|qc_eval|simpl in Ha; lia].
Qed.

(** C8, as stated, fails: the tensor of the small example has 7 states, not
    6, and index 5 is not terminal, since CONTINUE leaves it for index 6. *)
Lemma C8_counterexample :
  ∃ T, make_transition_matrix 4 5 = Ok T
     ∧ num_states T = 7
     ∧ get3 T CONTINUE 5 5 = Some 0%Qc
     ∧ get3 T CONTINUE 5 6 = Some 1%Qc
     ∧ ¬ (num_states T = 6 ∧ absorbing T 5).
Proof.
  eexists. split; [by apply make_transition_matrix_die|].
  repeat split; try qc_eval.
  intros [Hnum _]. vm_compute in Hnum. discriminate.
Qed.

(** C9 (amended): the builder validates nothing itself.  It returns for all
    positive inputs, and more generally exactly when [n_sides <> 0] and
    [max_score >= -1]; otherwise it stops on the first Python or numpy error
    met: [ValueError] when [max_score < -2], [ZeroDivisionError] when
    [n_sides = 0], [IndexError] when [max_score = -2].  It never raises
    [InvalidParameter]. *)
Theorem C9_builder_outcomes (n_sides max_score : Z) :
  ((0 < n_sides)%Z ∧ (0 < max_score)%Z → returns (build_model n_sides max_score))
  ∧ (returns (build_model n_sides max_score)
     ↔ n_sides ≠ 0%Z ∧ (-1 ≤ max_score)%Z)
  ∧ (build_model n_sides max_score = Raise ValueError ↔ (max_score < -2)%Z)
  ∧ (build_model n_sides max_score = Raise ZeroDivisionError
     ↔ n_sides = 0%Z ∧ (-2 ≤ max_score)%Z)
  ∧ (build_model n_sides max_score = Raise IndexError
     ↔ n_sides ≠ 0%Z ∧ max_score = (-2)%Z)
  ∧ build_model n_sides max_score ≠ Raise InvalidParameter.
Proof.
  unfold returns.
  destruct (build_model_outcome n_sides max_score)
    as [[HM ->]|[(HM & Hn & ->)|[(HM & Hn & ->)|(HM & Hn & [TR ->])]]];
    repeat match goal with
      | |- _ ∧ _ => split
      | |- _ ↔ _ => split
      | |- _ → _ => intros ?
      | H : _ ∧ _ |- _ => destruct H
      | H : ∃ _, _ |- _ => destruct H
      end;
    try discriminate; try lia; try done; try (by eexists).
Qed.

Lemma C9_witness : returns (build_model 20 21).
Proof. apply (proj1 (C9_builder_outcomes 20 21)). lia. Defined.

(** C9, as stated, fails: [n_sides = -3] is not positive, yet the builder
    returns a model; and with [n_sides = 0] the failure is Python's
    division error, not [InvalidParameter]. *)
Lemma C9_counterexample :
  ¬ (0 < -3)%Z
  ∧ returns (build_model (-3) 5)
  ∧ build_model (-3) 5 ≠ Raise InvalidParameter
  ∧ build_model 0 5 = Raise ZeroDivisionError.
Proof.
  split; [lia|].
  destruct (build_model_outcome (-3) 5)
    as [[? _]|[(_ & ? & _)|[(? & _)|(_ & _ & [TR HTR])]]]; try lia.
  split; [by exists TR|]. split; [by rewrite HTR|done].
Qed.

(** ** Value iteration on the published example *)

(** Sweeps that are not needed do not change the answer. *)
Lemma iterate_more_fuel T R discount epsilon fuel fuel' k V policy :
  fuel ≤ fuel' →
  sol_converged (iterate T R discount epsilon fuel k V policy) = true →
  iterate T R discount epsilon fuel' k V policy
  = iterate T R discount epsilon fuel k V policy.
Proof.
  revert fuel' k V policy. induction fuel as [|fuel IH];
    intros fuel' k V policy Hle Hconv; [done|].
  destruct fuel' as [|fuel']; [lia|]. cbn [iterate] in *.
  destruct (bellman T R discount V) as [V' policy'].
  destruct (converged discount epsilon V' V); [done|].
  apply IH; [lia|done].
Qed.

Lemma solve_more_iterations T R discount epsilon max_iter max_iter' sol :
  max_iter ≤ max_iter' →
  solve T R discount epsilon max_iter = Ok sol →
  sol_converged sol = true →
  solve T R discount epsilon max_iter' = Ok sol.
Proof.
  unfold solve. intros Hle Hsol Hconv.
  destruct (negb _); [done|]. destruct (Qc_leb epsilon 0); [done|].
  destruct (negb _); [done|]. injection Hsol as <-.
  by rewrite (iterate_more_fuel _ _ _ _ max_iter max_iter').
Qed.

Lemma solve_game_more_iterations n_sides max_score discount epsilon
    max_iter max_iter' sol :
  max_iter ≤ max_iter' →
  solve_game n_sides max_score discount epsilon max_iter = Ok sol →
  sol_converged sol = true →
  solve_game n_sides max_score discount epsilon max_iter' = Ok sol.
Proof.
  unfold solve_game. intros Hle Hsol Hconv.
  destruct (make_transition_matrix n_sides max_score) as [T|]; [|done].
  destruct (make_reward_matrix max_score) as [R|]; [|done]. simpl in *.
  by apply (solve_more_iterations _ _ _ _ max_iter).
Qed.

(** The run of the published example, seven sweeps being enough. *)
Lemma published_run :
  ∃ sol, solve_game 20 21 1 (Q2Qc (1 # 1000)) 7 = Ok sol
       ∧ sol_converged sol = true
       ∧ take 22 (sol_policy sol) = replicate 10 CONTINUE ++ replicate 12 STOP
       ∧ take 12 (drop 10 (sol_V sol)) = of_nat <$> seq 10 12
       ∧ sol_iterations sol = 7
       ∧ sol_V sol !! 22 = Some 0%Qc.
Proof.
  assert (Hrun :
    match solve_game 20 21 1 (Q2Qc (1 # 1000)) 7 with
    | Ok sol =>
        sol_converged sol
        && bool_decide (take 22 (sol_policy sol)
                        = replicate 10 CONTINUE ++ replicate 12 STOP)
        && bool_decide (take 12 (drop 10 (sol_V sol)) = of_nat <$> seq 10 12)
        && bool_decide (sol_iterations sol = 7)
        && bool_decide (sol_V sol !! 22 = Some 0%Qc)
    | Raise _ => false
    end = true) by (vm_compute; reflexivity).
  destruct (solve_game 20 21 1 (Q2Qc (1 # 1000)) 7) as [sol|]; [|done].
  apply andb_prop in Hrun as [Hrun Hterm]. apply andb_prop in Hrun as [Hrun Hiter].
  apply andb_prop in Hrun as [Hrun HV]. apply andb_prop in Hrun as [Hconv Hpol].
  apply bool_decide_eq_true_1 in HV, Hpol, Hiter, Hterm. by exists sol.
Qed.

(** C1: on the published example ([n_sides = 20], [max_score = 21],
    [discount = 1], [epsilon = 0.001]) value iteration converges, whatever
    the iteration cap from 7 on, and the policy it returns is CONTINUE on
    states 0..9 and STOP on states 10..21. *)
Theorem C1_published_policy (max_iter : nat) :
  7 ≤ max_iter →
  ∃ sol, solve_game 20 21 1 (Q2Qc (1 # 1000)) max_iter = Ok sol
       ∧ sol_converged sol = true
       ∧ (∀ s, s ≤ 9 → sol_policy sol !! s = Some CONTINUE)
       ∧ (∀ s, 10 ≤ s ≤ 21 → sol_policy sol !! s = Some STOP).
Proof.
  intros Hcap. destruct published_run as (sol & Hsol & Hconv & Hpol & _).
  exists sol. split; [by apply (solve_game_more_iterations _ _ _ _ 7)|].
  split; [done|].
  assert (Hlook : ∀ s, s < 22 →
    sol_policy sol !! s = (replicate 10 CONTINUE ++ replicate 12 STOP) !! s).
  { intros s Hs. by rewrite <- Hpol, lookup_take_lt. }
  split; intros s Hs; rewrite Hlook by lia.
  - rewrite lookup_app_l by (rewrite length_replicate; lia).
    apply lookup_replicate_2. lia.
  - rewrite lookup_app_r by (rewrite length_replicate; lia).
    apply lookup_replicate_2. rewrite length_replicate. lia.
Qed.

Lemma C1_witness :
  ∃ sol, solve_game 20 21 1 (Q2Qc (1 # 1000)) 1000 = Ok sol
       ∧ sol_converged sol = true
       ∧ (∀ s, s ≤ 9 → sol_policy sol !! s = Some CONTINUE)
       ∧ (∀ s, 10 ≤ s ≤ 21 → sol_policy sol !! s = Some STOP).
Proof. apply (C1_published_policy 1000); lia. Defined.

(** C2: on the published example value iteration converges, whatever the
    iteration cap from 7 on, after 7 sweeps; the policy it returns is
    CONTINUE on states 0..9 and STOP on states 10..21, and the value
    function it returns with that policy has [V(s) = s] exactly for every
    state [10 <= s <= 21] (and [V = 0] at the terminal state). *)
Theorem C2_published_values (max_iter : nat) :
  7 ≤ max_iter →
  ∃ sol, solve_game 20 21 1 (Q2Qc (1 # 1000)) max_iter = Ok sol
       ∧ sol_converged sol = true
       ∧ sol_iterations sol = 7
       ∧ (∀ s, s ≤ 9 → sol_policy sol !! s = Some CONTINUE)
       ∧ (∀ s, 10 ≤ s ≤ 21 →
            sol_policy sol !! s = Some STOP ∧ sol_V sol !! s = Some (of_nat s))
       ∧ sol_V sol !! 22 = Some 0%Qc.
Proof.
  intros Hcap.
  destruct published_run as (sol & Hsol & Hconv & Hpol & HV & Hiter & Hterm).
  exists sol. split; [by apply (solve_game_more_iterations _ _ _ _ 7)|].
  split; [done|]. split; [done|].
  assert (Hlook : ∀ s, s < 22 →
    sol_policy sol !! s = (replicate 10 CONTINUE ++ replicate 12 STOP) !! s).
  { intros s Hs. by rewrite <- Hpol, lookup_take_lt. }
  split; [|split; [|done]].
  - intros s Hs. rewrite Hlook by lia.
    rewrite lookup_app_l by (rewrite length_replicate; lia).
    apply lookup_replicate_2. lia.
  - intros s Hs. split.
    + rewrite Hlook by lia.
      rewrite lookup_app_r by (rewrite length_replicate; lia).
      apply lookup_replicate_2. rewrite length_replicate. lia.
    + replace s with (10 + (s - 10)) at 1 by lia.
      rewrite <- lookup_drop, <- (lookup_take_lt _ 12) by lia.
      rewrite HV, list_lookup_fmap, lookup_seq_lt by lia. simpl.
      do 2 f_equal. lia.
Qed.

Lemma C2_witness :
  ∃ sol, solve_game 20 21 1 (Q2Qc (1 # 1000)) 1000 = Ok sol
       ∧ sol_converged sol = true
       ∧ sol_iterations sol = 7
       ∧ (∀ s, s ≤ 9 → sol_policy sol !! s = Some CONTINUE)
       ∧ (∀ s, 10 ≤ s ≤ 21 →
            sol_policy sol !! s = Some STOP ∧ sol_V sol !! s = Some (of_nat s))
       ∧ sol_V sol !! 22 = Some 0%Qc.
Proof. apply (C2_published_values 1000); lia. Defined.

(** ** Arrays given by their cells *)

Lemma fmap_seq_ext {B} n (f g : nat → B) :
  (∀ i, i < n → f i = g i) → f <$> seq 0 n = g <$> seq 0 n.
Proof.
  intros Hfg. apply list_fmap_ext. intros k i Hi.
  apply lookup_seq in Hi as [-> Hi]. by apply Hfg.
Qed.

Lemma tab1_ext n f g : (∀ i, i < n → f i = g i) → tab1 n f = tab1 n g.
Proof. apply fmap_seq_ext. Qed.

Lemma tab2_ext m n f g :
  (∀ i j, i < m → j < n → f i j = g i j) → tab2 m n f = tab2 m n g.
Proof.
  intros Hfg. apply fmap_seq_ext. intros i Hi.
  apply tab1_ext. intros j Hj. by apply Hfg.
Qed.

Lemma tab3_ext l m n f g :
  (∀ i j k, i < l → j < m → k < n → f i j k = g i j k) →
  tab3 l m n f = tab3 l m n g.
Proof.
  intros Hfg. apply fmap_seq_ext. intros i Hi.
  apply tab2_ext. intros j k Hj Hk. by apply Hfg.
Qed.

Lemma length_tab1 n f : length (tab1 n f) = n.
Proof. unfold tab1. by rewrite length_fmap, length_seq. Qed.

Lemma length_tab2 m n f : length (tab2 m n f) = m.
Proof. unfold tab2. by rewrite length_fmap, length_seq. Qed.

Lemma length_tab3 l m n f : length (tab3 l m n f) = l.
Proof. unfold tab3. by rewrite length_fmap, length_seq. Qed.

Lemma lookup_tab1 n f i : i < n → tab1 n f !! i = Some (f i).
Proof. intros. unfold tab1. by rewrite list_lookup_fmap, lookup_seq_lt. Qed.

Lemma lookup_tab2 m n f i : i < m → tab2 m n f !! i = Some (tab1 n (f i)).
Proof. intros. unfold tab2. by rewrite list_lookup_fmap, lookup_seq_lt. Qed.

Lemma lookup_tab3 l m n f i : i < l → tab3 l m n f !! i = Some (tab2 m n (f i)).
Proof. intros. unfold tab3. by rewrite list_lookup_fmap, lookup_seq_lt. Qed.

Lemma get3_tab3 l m n f i j k :
  i < l → j < m → k < n → get3 (tab3 l m n f) i j k = Some (f i j k).
Proof.
  intros. unfold get3, get2, get1.
  by rewrite lookup_tab3, lookup_tab2, lookup_tab1.
Qed.

Lemma zeros1_tab n : np_zeros1 n = tab1 n (λ _, 0%Qc).
Proof.
  apply list_eq. intros i. unfold np_zeros1. destruct (decide (i < n)).
  - by rewrite lookup_replicate_2, lookup_tab1.
  - rewrite (proj1 (lookup_replicate_None _ _ _)) by lia. symmetry.
    apply lookup_ge_None. rewrite length_tab1. lia.
Qed.

Lemma zeros2_tab m n : np_zeros2 m n = tab2 m n (λ _ _, 0%Qc).
Proof.
  apply list_eq. intros i. unfold np_zeros2. destruct (decide (i < m)).
  - by rewrite lookup_replicate_2, lookup_tab2, zeros1_tab.
  - rewrite (proj1 (lookup_replicate_None _ _ _)) by lia. symmetry.
    apply lookup_ge_None. rewrite length_tab2. lia.
Qed.

Lemma zeros3_tab l m n : np_zeros3 l m n = tab3 l m n (λ _ _ _, 0%Qc).
Proof.
  apply list_eq. intros i. unfold np_zeros3. destruct (decide (i < l)).
  - by rewrite lookup_replicate_2, lookup_tab3, zeros2_tab.
  - rewrite (proj1 (lookup_replicate_None _ _ _)) by lia. symmetry.
    apply lookup_ge_None. rewrite length_tab3. lia.
Qed.

Lemma insert_tab1 n f i v :
  <[i:=v]> (tab1 n f) = tab1 n (λ j, if bool_decide (j = i) then v else f j).
Proof.
  apply list_eq. intros j. destruct (decide (j < n)) as [Hj|Hj].
  - rewrite lookup_tab1 by done. case_bool_decide as Hij.
    + subst j. apply list_lookup_insert_eq. by rewrite length_tab1.
    + rewrite list_lookup_insert_ne by done. by apply lookup_tab1.
  - rewrite !(proj2 (lookup_ge_None _ _)); [done| |];
      rewrite ?length_insert, length_tab1; lia.
Qed.

Lemma zip_with_fmap_same {A B C D} (F : B → C → D) (a : A → B) (b : A → C)
    (l : list A) :
  zip_with F (a <$> l) (b <$> l) = (λ x, F (a x) (b x)) <$> l.
Proof. induction l as [|x l IH]; [done|]. rewrite !fmap_cons. simpl. by f_equal. Qed.

Lemma dot_tab1 n f g : dot (tab1 n f) (tab1 n g) = big_sum n (λ j, f j * g j)%Qc.
Proof. unfold dot, tab1. by rewrite zip_with_fmap_same. Qed.

(** ** The propagator's array operations on tables *)

Lemma slice_t_tab3 l m n f t :
  t < n → slice_t (tab3 l m n f) t = tab2 l m (λ k j, f k j t).
Proof.
  intros Ht. unfold slice_t, tab3, tab2.
  rewrite <- list_fmap_compose. apply fmap_seq_ext. intros k _. simpl.
  rewrite <- list_fmap_compose. apply fmap_seq_ext. intros j _. simpl.
  by rewrite lookup_tab1.
Qed.

Lemma set_slice_t_tab3 l m n f g t :
  set_slice_t (tab3 l m n f) t (tab2 l m g)
  = tab3 l m n (λ k j t', if bool_decide (t' = t) then g k j else f k j t').
Proof.
  unfold set_slice_t, tab3, tab2 at 2. rewrite zip_with_fmap_same.
  apply fmap_seq_ext. intros k _. unfold tab2. unfold tab1 at 2.
  rewrite zip_with_fmap_same. apply fmap_seq_ext. intros j _.
  apply insert_tab1.
Qed.

Lemma col_tab2 m n f i : i < n → col (tab2 m n f) i = tab1 m (λ j, f j i).
Proof.
  intros Hi. unfold col, tab2. unfold tab1 at 2. rewrite <- list_fmap_compose.
  apply fmap_seq_ext. intros j _. simpl. by rewrite lookup_tab1.
Qed.

Lemma einsum_tab2 n g h :
  einsum_ji_kj_ki (tab2 n n g) (tab2 n n h)
  = tab2 n n (λ k i, big_sum n (λ j, g j i * h k j)%Qc).
Proof.
  unfold einsum_ji_kj_ki. destruct (decide (0 < n)) as [Hn|Hn].
  - unfold row2. rewrite lookup_tab2 by done. simpl. rewrite length_tab1.
    unfold tab2 at 2 3. rewrite <- list_fmap_compose.
    apply fmap_seq_ext. intros k _. simpl.
    apply fmap_seq_ext. intros i Hi.
    by rewrite col_tab2, dot_tab1.
  - by replace n with 0 by lia.
Qed.

Lemma alter_fmap_seq {B} (F : B → B) (g : nat → B) n i :
  alter F i (g <$> seq 0 n)
  = (λ j, if bool_decide (j = i) then F (g j) else g j) <$> seq 0 n.
Proof.
  apply list_eq. intros j. rewrite list_lookup_fmap.
  destruct (decide (i = j)) as [->|Hne].
  - rewrite list_lookup_alter_eq, list_lookup_fmap.
    destruct (seq 0 n !! j) as [k|] eqn:Hk; [simpl|done].
    apply lookup_seq in Hk as [-> _]. by rewrite bool_decide_eq_true_2.
  - rewrite list_lookup_alter_ne, list_lookup_fmap by done.
    destruct (seq 0 n !! j) as [k|] eqn:Hk; [simpl|done].
    apply lookup_seq in Hk as [-> _]. by rewrite bool_decide_eq_false_2.
Qed.

Lemma set2_tab2 m n f i j v :
  set2 (tab2 m n f) i j v
  = tab2 m n (λ a b, if bool_decide (a = i ∧ b = j) then v else f a b).
Proof.
  unfold set2, tab2. rewrite alter_fmap_seq. apply fmap_seq_ext. intros a _.
  case_bool_decide as Ha.
  - rewrite insert_tab1. apply tab1_ext. intros b _.
    do 2 case_bool_decide; (done || (exfalso; intuition lia)).
  - apply tab1_ext. intros b _. rewrite bool_decide_eq_false_2; [done|tauto].
Qed.

Lemma set3_tab3 l m n f a i j v :
  set3 (tab3 l m n f) a i j v
  = tab3 l m n (λ x y z,
      if bool_decide (x = a ∧ y = i ∧ z = j) then v else f x y z).
Proof.
  unfold set3, tab3. rewrite alter_fmap_seq. apply fmap_seq_ext. intros x _.
  case_bool_decide as Hx.
  - fold (set2 (tab2 m n (f x)) i j v). rewrite set2_tab2.
    apply tab2_ext. intros y z _ _.
    do 2 case_bool_decide; (done || (exfalso; intuition lia)).
  - apply tab2_ext. intros y z _ _. rewrite bool_decide_eq_false_2; [done|tauto].
Qed.

Lemma setitem3_tab3 l m n f a i j v :
  a < l → i < m → j < n →
  setitem3 (tab3 l m n f) (Z.of_nat a) (Z.of_nat i) (Z.of_nat j) v
  = Ok (tab3 l m n (λ x y z,
      if bool_decide (x = a ∧ y = i ∧ z = j) then v else f x y z)).
Proof.
  intros Ha Hi Hj.
  rewrite (setitem3_in_range _ a i j v (tab2 m n (f a)) (tab1 n (f a i))).
  - by rewrite set3_tab3.
  - by apply lookup_tab3.
  - by apply lookup_tab2.
  - by rewrite length_tab1.
Qed.

(** ** The propagator, loop by loop *)

Section propagator.
Context (policy : list Z) (T : tensor).
Local Abbreviation S := (length policy).

Lemma getitem3_T_pi s s' :
s < S → s' < S → reads_defined policy T →
getitem3 T (default 0%Z (policy !! s)) (Z.of_nat s) (Z.of_nat s')
= Ok (T_pi policy T s s').
Proof.
intros Hs Hs' Hreads. destruct (Hreads s s' Hs Hs') as [v Hv].
unfold T_pi. by rewrite Hv.
Qed.

(** The loop nest that reduces [T] to the fixed-policy matrix. *)
Lemma reduce_loops :
reads_defined policy T →
forM (range 0 S) (λ s T_,
  forM (range 0 S) (λ sprime T_,
    do v <- getitem3 T (default 0%Z (policy !! s)) (Z.of_nat s) (Z.of_nat sprime);
    Ok (set2 T_ s sprime v)) T_) (np_zeros2 S S)
= Ok (tab2 S S (T_pi policy T)).
Proof.
intros Hreads.
destruct (forM_range_ind
  (λ s T_, T_ = tab2 S S (λ a b,
     if bool_decide (a < s) then T_pi policy T a b else 0%Qc))
  (λ s T_,
     forM (range 0 S) (λ sprime T_,
       do v <- getitem3 T (default 0%Z (policy !! s)) (Z.of_nat s) (Z.of_nat sprime);
       Ok (set2 T_ s sprime v)) T_)
  (np_zeros2 S S) 0 S) as (T_ & -> & ->); [lia| | |].
- rewrite zeros2_tab. apply tab2_ext. intros a b _ _.
  by rewrite bool_decide_eq_false_2 by lia.
- intros s T_ Hs ->.
  destruct (forM_range_ind
    (λ j T_, T_ = tab2 S S (λ a b,
       if bool_decide (a < s ∨ (a = s ∧ b < j)) then T_pi policy T a b else 0%Qc))
    (λ sprime T_,
       do v <- getitem3 T (default 0%Z (policy !! s)) (Z.of_nat s) (Z.of_nat sprime);
       Ok (set2 T_ s sprime v))
    (tab2 S S (λ a b, if bool_decide (a < s) then T_pi policy T a b else 0%Qc))
    0 S) as (T_ & -> & ->); [lia| | |].
  + apply tab2_ext. intros a b _ _.
    do 2 case_bool_decide; (done || (exfalso; lia)).
  + intros j T_ Hj ->. rewrite getitem3_T_pi by (done || lia). cbn [rbind].
    eexists. split; [done|]. rewrite set2_tab2. apply tab2_ext.
    intros a b _ _. repeat case_bool_decide; (done || (exfalso; lia) || idtac).
    by destruct_and!; subst.
  + eexists. split; [done|]. apply tab2_ext. intros a b _ Hb.
    do 2 case_bool_decide; (done || (exfalso; lia)).
- f_equal. apply tab2_ext. intros a b Ha _.
  by rewrite bool_decide_eq_true_2.
Qed.

(** The loop that writes the initial distributions. *)
Lemma init_loop D :
0 < D →
forM (range 0 S) (λ s rho,
  setitem3 rho (Z.of_nat s) (Z.of_nat s) 0 1%Qc) (np_zeros3 S S D)
= Ok (tab3 S S D (λ s0 s t,
    if bool_decide (t = 0) then rho_spec policy T s0 s 0 else 0%Qc)).
Proof.
intros HD.
destruct (forM_range_ind
  (λ k rho, rho = tab3 S S D (λ s0 s t,
     if bool_decide (s0 = s ∧ t = 0 ∧ s0 < k) then 1%Qc else 0%Qc))
  (λ s rho, setitem3 rho (Z.of_nat s) (Z.of_nat s) 0 1%Qc)
  (np_zeros3 S S D) 0 S) as (rho & -> & ->); [lia| | |].
- rewrite zeros3_tab. apply tab3_ext. intros s0 s t _ _ _.
  by rewrite bool_decide_eq_false_2 by lia.
- intros k rho Hk ->. eexists. change 0%Z with (Z.of_nat 0).
  rewrite setitem3_tab3 by (done || lia). split; [done|].
  apply tab3_ext. intros s0 s t _ _ _.
  repeat case_bool_decide; (done || (exfalso; lia)).
- f_equal. apply tab3_ext. intros s0 s t Hs0 _ _. simpl.
  repeat case_bool_decide; (done || (exfalso; lia)).
Qed.

(** The time loop, with the fixed-policy matrix and the initial
  distributions in place. *)
Lemma time_loop D :
0 < D →
for_ (range 1 D) (λ t rho,
  set_slice_t rho t
    (einsum_ji_kj_ki (tab2 S S (T_pi policy T)) (slice_t rho (t - 1))))
  (tab3 S S D (λ s0 s t,
     if bool_decide (t = 0) then rho_spec policy T s0 s 0 else 0%Qc))
= tab3 S S D (rho_spec policy T).
Proof.
intros HD.
trans (tab3 S S D (λ s0 s t,
  if bool_decide (t < D) then rho_spec policy T s0 s t else 0%Qc)).
2:{ apply tab3_ext. intros s0 s t _ _ Ht. by rewrite bool_decide_eq_true_2. }
apply (for_range_ind (λ t rho, rho = tab3 S S D (λ s0 s t',
    if bool_decide (t' < t) then rho_spec policy T s0 s t' else 0%Qc))
  (λ t rho, set_slice_t rho t
     (einsum_ji_kj_ki (tab2 S S (T_pi policy T)) (slice_t rho (t - 1))))
  _ 1 D); [lia| |].
- apply tab3_ext. intros s0 s t _ _ _.
  do 2 case_bool_decide; try done; try (exfalso; lia). by subst t.
- intros t rho Ht ->.
  rewrite slice_t_tab3 by lia. rewrite einsum_tab2, set_slice_t_tab3.
  apply tab3_ext. intros s0 s t' _ _ _.
  case_bool_decide as Htt.
  + subst t'. rewrite (bool_decide_eq_true_2 (t < t + 1)) by lia.
    destruct t as [|t]; [lia|]. cbn [rho_spec]. fold S.
    apply big_sum_ext. intros j _. rewrite bool_decide_eq_true_2 by lia.
    by replace (Datatypes.S t - 1) with t by lia.
  + do 2 case_bool_decide; (done || (exfalso; lia)).
Qed.

(** The propagator returns the table of [rho_spec]. *)
Lemma calculate_state_distribution_table (t_max : Z) :
reads_defined policy T → (0 ≤ t_max)%Z →
calculate_state_distribution policy T t_max
= Ok (tab3 S S (Z.to_nat (t_max + 1)) (rho_spec policy T)).
Proof.
intros Hreads Ht. unfold calculate_state_distribution. fold S.
rewrite reduce_loops by done. cbn [rbind]. unfold np_dim.
rewrite (proj2 (Z.ltb_ge _ _)) by lia. cbn [rbind].
rewrite init_loop by lia. cbn [rbind].
by rewrite time_loop by lia.
Qed.
End propagator.

(** ** Conservation of probability mass *)

Lemma big_sum_0 n : big_sum n (λ _, 0%Qc) = 0%Qc.
Proof. induction n as [|n IH]; [done|]. rewrite big_sum_S, IH. ring. Qed.


Lemma big_sum_mul_r n f c :
  big_sum n (λ i, f i * c)%Qc = (big_sum n f * c)%Qc.
Proof.
  induction n as [|n IH]; [unfold big_sum; simpl; ring|].
  rewrite !big_sum_S, IH. ring.
Qed.


Lemma big_sum_indicator n i :
  i < n → big_sum n (λ j, if bool_decide (j = i) then 1%Qc else 0%Qc) = 1%Qc.
Proof.
  intros Hi.
  rewrite (big_sum_ext n _
    (λ j, if bool_decide (i ≤ j < i + 1) then 1%Qc else 0%Qc)).
  2:{ intros j _. do 2 case_bool_decide; (done || (exfalso; lia)). }
  rewrite big_sum_interval by lia. replace (i + 1 - i) with 1 by lia.
  rewrite of_nat_S, of_nat_0. ring.
Qed.

Section conservation.
Context (policy : list Z) (T : tensor) (A : nat).
Local Abbreviation S := (length policy).
Context (Hshape : has_shape T A S) (Hpolicy : policy_in_range policy A).

(** The action the policy takes in state [s]. *)
Lemma policy_action s :
s < S → ∃ a, a < A ∧ default 0%Z (policy !! s) = Z.of_nat a.
Proof.
intros Hs. destruct (lookup_lt_is_Some_2 policy s Hs) as [z Hz].
pose proof (Forall_lookup_1 _ _ _ _ Hpolicy Hz) as Hrange. simpl in Hrange.
exists (Z.to_nat z). rewrite Hz. simpl. lia.
Qed.

Lemma T_pi_read s s' :
s < S → s' < S →
∃ a, a < A ∧ default 0%Z (policy !! s) = Z.of_nat a
   ∧ get3 T a s s' = Some (T_pi policy T s s')
   ∧ row T a s !! s' = Some (T_pi policy T s s').
Proof.
intros Hs Hs'. destruct (policy_action s Hs) as (a & Ha & Hpa).
exists a. do 2 (split; [done|]).
destruct Hshape as [HlenT Hrows]. destruct (Hrows a Ha) as [HlenM Hrow].
specialize (Hrow s Hs).
destruct (T !! a) as [M|] eqn:HM; [|apply lookup_ge_None in HM; lia].
simpl in HlenM.
destruct (M !! s) as [r|] eqn:Hr; [|apply lookup_ge_None in Hr; lia].
rewrite (row_lookup T a s M r) in * by done.
destruct (r !! s') as [x|] eqn:Hx; [|apply lookup_ge_None in Hx; lia].
assert (Hget : get3 T a s s' = Some x).
{ unfold get3, get2, get1. by rewrite HM, Hr. }
unfold T_pi. rewrite Hpa, (getitem3_in_range T a s s' x Hget). by rewrite Hget.
Qed.

Lemma shape_reads_defined : reads_defined policy T.
Proof.
intros s s' Hs Hs'. destruct (T_pi_read s s' Hs Hs') as (a & _ & Hpa & Hget & _).
rewrite Hpa. exists (T_pi policy T s s'). by apply getitem3_in_range.
Qed.


End conservation.

(** ** Propagator *)

(** C6: on a tensor of shape [(A, S, S)] and a policy over its [S] states
    with action indices in range, for [t_max >= 0], the propagator returns
    [rho] with [rho(s0,s,0) = 1] if [s = s0] and [0] otherwise, and for
    [1 <= t <= t_max], [rho(s0,s,t) = sum_s' T_pi(s',s) * rho(s0,s',t-1)],
    where [T_pi(s,s') = T[policy(s), s, s']]. *)
Theorem C6_propagator_recurrence (policy : list Z) (T : tensor) (A : nat)
    (t_max : Z) :
  has_shape T A (length policy) → policy_in_range policy A → (0 ≤ t_max)%Z →
  let S := length policy in
  ∃ rho, calculate_state_distribution policy T t_max = Ok rho
     ∧ (∀ s s', s < S → s' < S →
          get3 T (Z.to_nat (default 0%Z (policy !! s))) s s'
          = Some (T_pi policy T s s'))
     ∧ (∀ s0 s, s0 < S → s < S →
          get3 rho s0 s 0 = Some (if bool_decide (s = s0) then 1%Qc else 0%Qc))
     ∧ (∀ s0 s t, s0 < S → s < S → 1 ≤ t → (Z.of_nat t ≤ t_max)%Z →
          get3 rho s0 s t
          = Some (big_sum S (λ s',
              T_pi policy T s' s * default 0%Qc (get3 rho s0 s' (t - 1)))%Qc)).
Proof.
  intros Hshape Hpolicy Ht S. eexists.
  split; [apply calculate_state_distribution_table;
          [by eapply shape_reads_defined|done]|].
  fold S. split; [|split].
  - intros s s' Hs Hs'.
    destruct (T_pi_read policy T A Hshape Hpolicy s s' Hs Hs')
      as (a & _ & -> & Hget & _).
    by rewrite Nat2Z.id.
  - intros s0 s Hs0 Hs. by rewrite get3_tab3 by lia.
  - intros s0 s t Hs0 Hs Ht1 Htmax. rewrite get3_tab3 by lia.
    destruct t as [|t]; [lia|]. cbn [rho_spec]. fold S. f_equal.
    apply big_sum_ext. intros s' Hs'.
    rewrite get3_tab3 by lia. simpl. by rewrite Nat.sub_0_r.
Qed.

Lemma C6_witness :
  let policy := [0; 0; 0; 1; 1; 1; 0]%Z in
  ∃ T, make_transition_matrix 4 5 = Ok T
  ∧ ∃ rho, calculate_state_distribution policy T 3 = Ok rho
     ∧ (∀ s s', s < 7 → s' < 7 →
          get3 T (Z.to_nat (default 0%Z (policy !! s))) s s'
          = Some (T_pi policy T s s'))
     ∧ (∀ s0 s, s0 < 7 → s < 7 →
          get3 rho s0 s 0 = Some (if bool_decide (s = s0) then 1%Qc else 0%Qc))
     ∧ (∀ s0 s t, s0 < 7 → s < 7 → 1 ≤ t → (Z.of_nat t ≤ 3)%Z →
          get3 rho s0 s t
          = Some (big_sum 7 (λ s',
              T_pi policy T s' s * default 0%Qc (get3 rho s0 s' (t - 1)))%Qc)).
Proof.
  eexists. split; [by apply make_transition_matrix_die|].
  apply (C6_propagator_recurrence [0; 0; 0; 1; 1; 1; 0]%Z _ 2 3).
  - apply (closed_has_shape 4 7).
  - repeat constructor; lia.
  - lia.
Defined.






(** * Further properties of the code *)

(** ** More on the model builder *)

Lemma stay_matrix_clamped S :
  fmap (M := list) clamp <$> replicate S (terminal_row S)
  = replicate S (terminal_row S).
Proof.
  apply clamp_matrix, Forall_replicate.
  eapply List.Forall_impl; [|apply terminal_row_bounds]. by intros x [? _].
Qed.

(** X1: whatever the die ([n_sides <> 0], [max_score >= -1]), STOP sends
    every state to the terminal state with probability 1: row [s] of [T[1]]
    is 1 at index [max_score + 1] and 0 elsewhere. *)
Theorem X1_stop_rows (n_sides max_score : Z) (s s' : nat) :
  n_sides ≠ 0%Z → (-1 ≤ max_score)%Z →
  let S := Z.to_nat (max_score + 2) in
  s < S → s' < S →
  ∃ T, make_transition_matrix n_sides max_score = Ok T
     ∧ get3 T STOP s s' = Some (if bool_decide (s' = S - 1) then 1%Qc else 0%Qc).
Proof.
  intros Hn HM S Hs Hs'. eexists.
  split; [by apply make_transition_matrix_closed|]. fold S.
  rewrite stay_matrix_clamped. unfold get3, get2, get1, STOP. simpl.
  rewrite lookup_replicate_2 by done. by apply lookup_terminal_row.
Qed.

Lemma X1_witness :
  ∃ T, make_transition_matrix (-3) 5 = Ok T
     ∧ get3 T STOP 2 6 = Some (if bool_decide (6 = 7 - 1) then 1%Qc else 0%Qc).
Proof. apply (X1_stop_rows (-3) 5 2 6); (lia || done). Defined.

(** X2: for a real die, CONTINUE moves between non-terminal states only
    upwards and by at most [n_sides]: [T[0,s,s']] is [1/n_sides] when
    [s < s' <= s + n_sides] and 0 otherwise (no staying, no going back). *)
Theorem X2_roll_entries (n_sides max_score : Z) (s s' : nat) :
  (0 < n_sides)%Z → (0 ≤ max_score)%Z →
  (Z.of_nat s ≤ max_score)%Z → (Z.of_nat s' ≤ max_score)%Z →
  ∃ T, make_transition_matrix n_sides max_score = Ok T
     ∧ get3 T CONTINUE s s'
       = Some (if bool_decide (s < s' ∧ (Z.of_nat s' ≤ Z.of_nat s + n_sides)%Z)
               then (/ of_int n_sides)%Qc else 0%Qc).
Proof.
  intros Hn HM Hs Hs'. eexists.
  split; [by apply make_transition_matrix_die; lia|].
  set (S := Z.to_nat (max_score + 2)).
  assert (s < S - 1 ∧ s' < S - 1) as [HsS Hs'S] by (unfold S; lia).
  unfold CONTINUE. rewrite closed_get3, closed_row_roll by lia.
  unfold roll_row. rewrite bool_decide_eq_true_2 by done.
  rewrite list_lookup_insert_ne by lia.
  unfold roll_partial. rewrite list_lookup_fmap, lookup_seq_lt by lia. simpl.
  f_equal. unfold reach.
  destruct (Z.leb_spec (Z.of_nat s') (Z.of_nat s + n_sides));
    repeat case_bool_decide; simpl; (done || (exfalso; lia)).
Qed.

Lemma X2_witness :
  ∃ T, make_transition_matrix 20 21 = Ok T
     ∧ get3 T CONTINUE 9 5
       = Some (if bool_decide (9 < 5 ∧ (Z.of_nat 5 ≤ Z.of_nat 9 + 20)%Z)
               then (/ of_int 20)%Qc else 0%Qc).
Proof. apply (X2_roll_entries 20 21 9 5); lia. Defined.

(** The bust entry of the closed form. *)
Lemma closed_bust_entry (n_sides max_score : Z) (s : nat) :
  (0 < n_sides)%Z → (0 ≤ max_score)%Z → (Z.of_nat s ≤ max_score)%Z →
  let S := Z.to_nat (max_score + 2) in
  get3 [roll_row n_sides S <$> seq 0 S; replicate S (terminal_row S)]
    CONTINUE s (S - 1)
  = Some (of_int (Z.max 0 (Z.of_nat s + n_sides - max_score)) * / of_int n_sides)%Qc.
Proof.
  intros Hn HM Hs S. assert (HsS : s < S - 1) by (unfold S; lia).
  unfold CONTINUE. rewrite closed_get3, closed_row_roll by lia.
  unfold roll_row. rewrite bool_decide_eq_true_2 by done.
  rewrite list_lookup_insert_eq by (rewrite length_roll_partial; lia).
  f_equal. rewrite np_sum_roll_partial, of_nat_of_int by lia.
  replace (Z.of_nat (safe_faces n_sides S s))
    with (n_sides - Z.max 0 (Z.of_nat s + n_sides - max_score))%Z
    by (unfold safe_faces, S; lia).
  unfold of_int. rewrite Z2Qc_inj_sub.
  pose proof (of_int_nonzero n_sides ltac:(lia)) as Hnz. unfold of_int in Hnz.
  by field.
Qed.

(** X3: from [max_score] a roll busts for sure: row [max_score] of [T[0]]
    is 1 at the terminal state and 0 elsewhere.  It holds in exact
    arithmetic and of the doubles the code stores: the first loop nest
    writes no cell of that row, so the residual is [1 - 0]. *)
Theorem X3_bust_certain (n_sides max_score : Z) (s' : nat) :
  (0 < n_sides)%Z → (0 ≤ max_score)%Z →
  let S := Z.to_nat (max_score + 2) in
  s' < S →
  (∃ T, make_transition_matrix n_sides max_score = Ok T
      ∧ get3 T CONTINUE (Z.to_nat max_score) s'
        = Some (if bool_decide (s' = S - 1) then 1%Qc else 0%Qc))
  ∧ (∃ T, F64.make_transition_matrix n_sides max_score = Ok T
      ∧ F64.get3 T CONTINUE (Z.to_nat max_score) s'
        = Some (if bool_decide (s' = S - 1) then 1%float else 0%float)).
Proof.
  intros Hn HM S Hs'. subst S. split.
  - eexists. split; [by apply make_transition_matrix_die; lia|].
    case_bool_decide as Heq.
    + rewrite Heq, closed_bust_entry by lia. f_equal.
      rewrite Z2Nat.id by lia.
      replace (Z.max 0 (max_score + n_sides - max_score)) with n_sides by lia.
      apply Qcmult_inv_r, of_int_nonzero. lia.
    + unfold CONTINUE. rewrite closed_get3, closed_row_roll by lia.
      unfold roll_row. rewrite bool_decide_eq_true_2 by lia.
      rewrite list_lookup_insert_ne by done. unfold roll_partial.
      rewrite list_lookup_fmap, lookup_seq_lt by done. simpl. unfold reach.
      by rewrite bool_decide_eq_false_2 by lia.
  - eexists. split; [by apply F64_make_transition_matrix_closed; lia|].
    unfold F64.get3, CONTINUE. cbn [lookup list_lookup].
    rewrite !list_lookup_fmap, lookup_seq_lt by lia. simpl.
    replace (Z.to_nat max_score) with (Z.to_nat (max_score + 2) - 2) by lia.
    rewrite F64_roll_row_last, F64_clamp_terminal_row by lia.
    by apply F64_lookup_terminal_row.
Qed.

Lemma X3_witness :
  (∃ T, make_transition_matrix 20 21 = Ok T
      ∧ get3 T CONTINUE 21 22
        = Some (if bool_decide (22 = 23 - 1) then 1%Qc else 0%Qc))
  ∧ (∃ T, F64.make_transition_matrix 20 21 = Ok T
      ∧ F64.get3 T CONTINUE 21 22
        = Some (if bool_decide (22 = 23 - 1) then 1%float else 0%float)).
Proof. apply (X3_bust_certain 20 21 22); lia. Defined.

Lemma roll_row_negative (n_sides : Z) (S s : nat) :
  (n_sides < 0)%Z → 0 < S → roll_row n_sides S s = terminal_row S.
Proof.
  intros Hn HS. unfold roll_row. case_bool_decide as Hs; [|done].
  assert (Hzeros : roll_partial n_sides S s = np_zeros1 S).
  { rewrite zeros1_tab. apply fmap_seq_ext. intros j _. unfold reach.
    destruct (Z.leb_spec (Z.of_nat j) (Z.of_nat s + n_sides));
      case_bool_decide; simpl; (done || (exfalso; lia)). }
  rewrite Hzeros, np_sum_zeros. unfold terminal_row.
  by replace (1 - 0)%Qc with 1%Qc by ring.
Qed.

(** X4: a negative [n_sides] is not rejected; the model it yields is
    degenerate: rolling behaves like stopping, every state going to the
    terminal state with probability 1 under CONTINUE. *)
Theorem X4_negative_sides (n_sides max_score : Z) (s s' : nat) :
  (n_sides < 0)%Z → (-1 ≤ max_score)%Z →
  let S := Z.to_nat (max_score + 2) in
  s < S → s' < S →
  ∃ T, make_transition_matrix n_sides max_score = Ok T
     ∧ get3 T CONTINUE s s' = Some (if bool_decide (s' = S - 1) then 1%Qc else 0%Qc)
     ∧ get3 T CONTINUE s s' = get3 T STOP s s'.
Proof.
  intros Hn HM S Hs Hs'. eexists.
  split; [by apply make_transition_matrix_closed; lia|]. fold S.
  rewrite stay_matrix_clamped.
  assert (Hroll : fmap (M := list) clamp <$> (roll_row n_sides S <$> seq 0 S)
                  = replicate S (terminal_row S)).
  { rewrite <- stay_matrix_clamped. rewrite <- list_fmap_compose.
    apply list_eq. intros i. rewrite list_lookup_fmap.
    destruct (decide (i < S)) as [Hi|Hi].
    - rewrite lookup_seq_lt, list_lookup_fmap, lookup_replicate_2 by done.
      simpl. by rewrite roll_row_negative by lia.
    - rewrite lookup_seq_ge by lia. symmetry. apply lookup_ge_None.
      rewrite length_fmap, length_replicate. lia. }
  rewrite Hroll. split; [|done].
  unfold get3, get2, get1, CONTINUE. simpl.
  rewrite lookup_replicate_2 by done. by apply lookup_terminal_row.
Qed.

Lemma X4_witness :
  ∃ T, make_transition_matrix (-3) 5 = Ok T
     ∧ get3 T CONTINUE 0 6 = Some (if bool_decide (6 = 7 - 1) then 1%Qc else 0%Qc)
     ∧ get3 T CONTINUE 0 6 = get3 T STOP 0 6.
Proof. apply (X4_negative_sides (-3) 5 0 6); (lia || done). Defined.

(** X5: [make_reward_matrix] raises (numpy's [ValueError]) exactly when
    [max_score < -2]; otherwise it returns an array of [max_score + 2] rows
    of length 2, the empty array at [max_score = -2], where
    [make_transition_matrix] stops on an [IndexError]. *)
Theorem X5_reward_matrix_outcome (max_score : Z) :
  (make_reward_matrix max_score = Raise ValueError ↔ (max_score < -2)%Z)
  ∧ (returns (make_reward_matrix max_score) ↔ (-2 ≤ max_score)%Z)
  ∧ (∀ R, make_reward_matrix max_score = Ok R →
       length R = Z.to_nat (max_score + 2)
       ∧ ∀ s, s < length R → length (row2 R s) = 2)
  ∧ make_reward_matrix (-2) = Ok []
  ∧ ∀ n_sides, n_sides ≠ 0%Z →
      make_transition_matrix n_sides (-2) = Raise IndexError.
Proof.
  assert (Hindex : ∀ n_sides, n_sides ≠ 0%Z →
            make_transition_matrix n_sides (-2) = Raise IndexError).
  { intros n_sides Hn.
    destruct (make_transition_matrix_outcome n_sides (-2))
      as [[? _]|[(_ & ? & _)|[(_ & _ & ?)|(? & _)]]]; (done || lia). }
  destruct (Z.ltb_spec max_score (-2)) as [Hlt|Hge].
  - assert (Hraise : make_reward_matrix max_score = Raise ValueError).
    { unfold make_reward_matrix, np_dim.
      by rewrite (proj2 (Z.ltb_lt _ _)) by lia. }
    rewrite Hraise. unfold returns.
    split; [split; by intros|].
    split; [split; [by intros [R HR]|lia]|].
    split; [by intros R HR|]. by split.
  - destruct (make_reward_matrix_rows max_score Hge) as (R & HR & Hlen & Hrows).
    rewrite HR. unfold returns.
    split; [split; [done|lia]|].
    split; [split; [by intros|by exists R]|].
    split; [|by split].
    intros R' HR'. injection HR' as <-. split; [done|].
    intros s Hs. unfold row2. rewrite Hrows by lia. by case_bool_decide.
Qed.

Lemma X5_witness : returns (make_reward_matrix 21).
Proof. apply (proj2 (proj1 (proj2 (X5_reward_matrix_outcome 21)))). lia. Defined.

(** ** More on the propagator: errors and edges *)

Lemma forM_error_kind {St} (e0 : exn) (body : nat → St → result St) l st e :
  (∀ i st' e', body i st' = Raise e' → e' = e0) →
  forM l body st = Raise e → e = e0.
Proof.
  intros Hkind. revert st. induction l as [|i l IH]; intros st; [done|].
  simpl. destruct (body i st) as [st'|e'] eqn:Hbody; simpl.
  - apply IH.
  - intros [= <-]. by eapply Hkind.
Qed.

Lemma forM_raises_at {St} (body : nat → St → result St) l st i :
  i ∈ l → (∀ st', ∃ e, body i st' = Raise e) →
  ∃ e, forM l body st = Raise e.
Proof.
  intros Hi Hraise. revert st. induction l as [|j l IH]; intros st.
  - by apply elem_of_nil in Hi.
  - simpl. destruct (body j st) as [st'|e'] eqn:Hbody; simpl; [|by eexists].
    apply elem_of_cons in Hi as [->|Hi]; [|by apply IH].
    destruct (Hraise st) as [e He]. congruence.
Qed.

Lemma np_index_error len i e : np_index len i = Raise e → e = IndexError.
Proof. unfold np_index. repeat case_match; congruence. Qed.

Lemma np_index_Ok len i k :
  np_index len i = Ok k →
  k < len ∧ (((0 ≤ i)%Z ∧ i = Z.of_nat k)
             ∨ ((i < 0)%Z ∧ i = (Z.of_nat k - Z.of_nat len)%Z)).
Proof.
  unfold np_index.
  destruct (Z.leb_spec 0 i), (Z.ltb_spec i (Z.of_nat len)),
    (Z.leb_spec (- Z.of_nat len) i), (Z.ltb_spec i 0);
    simpl; intros [= <-]; lia.
Qed.

Lemma getitem3_error (T : tensor) a s s' e :
  getitem3 T a s s' = Raise e → e = IndexError.
Proof.
  unfold getitem3.
  destruct (np_index (length T) a) as [a'|e1] eqn:Ha; simpl;
    [|intros [= <-]; by eapply np_index_error].
  destruct (np_index _ s) as [s1|e2] eqn:Hs; simpl;
    [|intros [= <-]; by eapply np_index_error].
  destruct (np_index _ s') as [s2|e3] eqn:Hs'; simpl;
    [done|intros [= <-]; by eapply np_index_error].
Qed.

Lemma elem_of_range lo hi i : i ∈ range lo hi ↔ lo ≤ i < hi.
Proof. unfold range. rewrite elem_of_seq. lia. Qed.

(** One read out of bounds is enough for the propagator to stop on
    [IndexError], before anything else is computed. *)
Lemma failed_read_raises (policy : list Z) (T : tensor) (t_max : Z) s s' e :
  s < length policy → s' < length policy →
  getitem3 T (default 0%Z (policy !! s)) (Z.of_nat s) (Z.of_nat s') = Raise e →
  calculate_state_distribution policy T t_max = Raise IndexError.
Proof.
  intros Hs Hs' Hread. unfold calculate_state_distribution.
  match goal with
  | |- rbind ?loop _ = _ => destruct loop as [T_|e'] eqn:Hloop
  end.
  - exfalso.
    destruct (forM_raises_at
      (λ s T_, forM (range 0 (length policy)) (λ sprime T_,
         do v <- getitem3 T (default 0%Z (policy !! s)) (Z.of_nat s) (Z.of_nat sprime);
         Ok (set2 T_ s sprime v)) T_)
      (range 0 (length policy)) (np_zeros2 (length policy) (length policy)) s)
      as [e' He']; [apply elem_of_range; lia| |congruence].
    intros st. apply (forM_raises_at _ _ _ s'); [apply elem_of_range; lia|].
    intros st'. rewrite Hread. by eexists.
  - simpl. f_equal. revert Hloop. apply forM_error_kind.
    intros i st e1. apply forM_error_kind. intros j st' e2.
    destruct (getitem3 T (default 0%Z (policy !! i)) (Z.of_nat i) (Z.of_nat j))
      as [v|e3] eqn:Hget; simpl; [done|].
    intros Heq. injection Heq as Heq. subst e3. by eapply getitem3_error.
Qed.

(** X6: an action index outside [-A, A), [A] the number of actions of [T],
    makes the propagator raise [IndexError]. *)
Theorem X6_action_out_of_range (policy : list Z) (T : tensor) (t_max : Z)
    (s : nat) (a : Z) :
  policy !! s = Some a →
  ¬ (- Z.of_nat (length T) ≤ a < Z.of_nat (length T))%Z →
  calculate_state_distribution policy T t_max = Raise IndexError.
Proof.
  intros Hpol Ha. pose proof (lookup_lt_Some _ _ _ Hpol) as Hs.
  apply (failed_read_raises policy T t_max s 0 IndexError); [done|lia|].
  rewrite Hpol. simpl. unfold getitem3, np_index.
  destruct (Z.leb_spec 0 a), (Z.ltb_spec a (Z.of_nat (length T))),
    (Z.leb_spec (- Z.of_nat (length T)) a), (Z.ltb_spec a 0);
    simpl; (done || lia).
Qed.

Lemma X6_witness :
  calculate_state_distribution [0; 2]%Z
    [roll_row 4 7 <$> seq 0 7; replicate 7 (terminal_row 7)] 3
  = Raise IndexError.
Proof.
  apply (X6_action_out_of_range [0; 2]%Z
           [roll_row 4 7 <$> seq 0 7; replicate 7 (terminal_row 7)] 3 1 2).
  - reflexivity.
  - simpl. lia.
Defined.

(** X7: a policy with more entries than [T] has states makes the
    propagator raise [IndexError]. *)
Theorem X7_policy_too_long (policy : list Z) (T : tensor) (A ST : nat)
    (t_max : Z) :
  has_shape T A ST → ST < length policy →
  calculate_state_distribution policy T t_max = Raise IndexError.
Proof.
  intros [HlenT Hrows] Hlong.
  destruct (getitem3 T (default 0%Z (policy !! 0)) (Z.of_nat 0) (Z.of_nat ST))
    as [v|e] eqn:Hread.
  - exfalso. revert Hread. unfold getitem3.
    destruct (np_index (length T) _) as [a|] eqn:Ha; simpl; [|done].
    assert (a < A) as HaA by (apply np_index_Ok in Ha; lia).
    destruct (Hrows a HaA) as [HlenM Hrow]. rewrite HlenM.
    destruct (np_index ST (Z.of_nat 0)) as [s0|] eqn:Hs0; simpl; [|done].
    assert (s0 = 0 ∧ 0 < ST) as [-> HST] by (apply np_index_Ok in Hs0; lia).
    rewrite (Hrow 0 HST).
    destruct (np_index ST (Z.of_nat ST)) as [s1|] eqn:Hs1; simpl; [|done].
    apply np_index_Ok in Hs1. lia.
  - by apply (failed_read_raises policy T t_max 0 ST e); [lia|lia|].
Qed.

Lemma X7_witness :
  calculate_state_distribution [0; 0; 0; 1; 1; 1; 0; 1]%Z
    [roll_row 4 7 <$> seq 0 7; replicate 7 (terminal_row 7)] 3
  = Raise IndexError.
Proof.
  apply (X7_policy_too_long [0; 0; 0; 1; 1; 1; 0; 1]%Z
           [roll_row 4 7 <$> seq 0 7; replicate 7 (terminal_row 7)] 2 7 3).
  - apply (closed_has_shape 4 7).
  - simpl. lia.
Defined.

Lemma row_tab3 l m n f i j : i < l → j < m → row (tab3 l m n f) i j = tab1 n (f i j).
Proof.
  intros Hi Hj.
  apply (row_lookup _ i j (tab2 m n (f i))); [by apply lookup_tab3|by apply lookup_tab2].
Qed.

(** X8: the edges of [t_max], once the reads of [T] are in bounds:
    [t_max < -1] raises numpy's [ValueError] (negative dimension),
    [t_max = -1] raises [IndexError] at the first write [rho[0,0,0] = 1]
    unless the policy is empty, and an empty policy yields the empty
    array. *)
Theorem X8_t_max_edges (policy : list Z) (T : tensor) (t_max : Z) :
  reads_defined policy T →
  ((t_max < -1)%Z →
     calculate_state_distribution policy T t_max = Raise ValueError)
  ∧ (t_max = (-1)%Z → policy ≠ [] →
     calculate_state_distribution policy T t_max = Raise IndexError)
  ∧ ((-1 ≤ t_max)%Z → policy = [] →
     calculate_state_distribution policy T t_max = Ok []).
Proof.
  intros Hreads. split; [|split].
  - intros Ht. unfold calculate_state_distribution.
    rewrite reduce_loops by done. cbn [rbind]. unfold np_dim.
    by rewrite (proj2 (Z.ltb_lt _ _)) by lia.
  - intros -> Hne. unfold calculate_state_distribution.
    rewrite reduce_loops by done. cbn [rbind].
    change (np_dim (-1 + 1)) with (Ok (A := nat) 0). cbn [rbind].
    destruct (length policy) as [|n] eqn:Hlen.
    { by destruct policy. }
    unfold range. rewrite Nat.sub_0_r. cbn [seq forM].
    rewrite zeros3_tab. unfold setitem3.
    rewrite length_tab3, np_index_in_range by lia. cbn [rbind].
    rewrite lookup_tab3 by lia.
    change (default [] (Some ?M)) with M.
    rewrite length_tab2, np_index_in_range by lia. cbn [rbind].
    by rewrite row_tab3 by lia.
  - intros Ht ->. destruct (decide (t_max = -1)%Z) as [->|Hne]; [done|].
    by rewrite calculate_state_distribution_table by (done || lia).
Qed.

Lemma X8_witness :
  calculate_state_distribution [0; 1]%Z
    [roll_row 4 7 <$> seq 0 7; replicate 7 (terminal_row 7)] (-2)
  = Raise ValueError
  ∧ calculate_state_distribution [0; 1]%Z
    [roll_row 4 7 <$> seq 0 7; replicate 7 (terminal_row 7)] (-1)
  = Raise IndexError.
Proof.
  assert (Hreads : reads_defined [0; 1]%Z
            [roll_row 4 7 <$> seq 0 7; replicate 7 (terminal_row 7)]).
  { intros s s' Hs Hs'. simpl in Hs, Hs'.
    destruct s as [|[|s]], s' as [|[|s']]; try lia; by eexists. }
  split.
  - apply (proj1 (X8_t_max_edges _ _ (-2) Hreads)). lia.
  - by apply (proj1 (proj2 (X8_t_max_edges _ _ (-1) Hreads))).
Defined.

(** ** Negative action indices *)

Lemma np_index_resolve (A : nat) (a : Z) :
  (- Z.of_nat A ≤ a < Z.of_nat A)%Z →
  np_index A a = np_index A (resolve_action A a)
  ∧ (0 ≤ resolve_action A a < Z.of_nat A)%Z.
Proof.
  intros Ha. unfold resolve_action.
  destruct (Z.ltb_spec a 0) as [Hneg|Hpos]; [|split; [done|lia]].
  split; [|lia]. unfold np_index.
  rewrite (proj2 (Z.leb_gt 0 a)) by done. cbn [andb].
  rewrite (proj2 (Z.leb_le _ _)), (proj2 (Z.ltb_lt a 0)) by lia. cbn [andb].
  rewrite (proj2 (Z.leb_le 0 _)), (proj2 (Z.ltb_lt _ _)) by lia. cbn [andb].
  f_equal. lia.
Qed.

Lemma getitem3_resolve (T : tensor) (a s s' : Z) :
  (- Z.of_nat (length T) ≤ a < Z.of_nat (length T))%Z →
  getitem3 T a s s' = getitem3 T (resolve_action (length T) a) s s'.
Proof.
  intros Ha. unfold getitem3. by rewrite (proj1 (np_index_resolve _ _ Ha)).
Qed.

Lemma rho_spec_ext (policy policy' : list Z) (T : tensor) s0 s t :
  length policy = length policy' →
  (∀ s1 s2, s1 < length policy → T_pi policy T s1 s2 = T_pi policy' T s1 s2) →
  rho_spec policy T s0 s t = rho_spec policy' T s0 s t.
Proof.
  intros Hlen HT. revert s. induction t as [|t IH]; intros s; [done|].
  cbn [rho_spec]. rewrite <- Hlen. apply big_sum_ext. intros s1 Hs1.
  by rewrite HT, IH.
Qed.

(** X9: negative action indices are not rejected: numpy reads [T[-k]] from
    the end, so a policy with entries in [-A, A) gives exactly the result
    of the policy with each negative entry [a] replaced by [a + A]. *)
Theorem X9_negative_actions_wrap (policy : list Z) (T : tensor) (A : nat)
    (t_max : Z) :
  has_shape T A (length policy) →
  Forall (λ a, (- Z.of_nat A ≤ a < Z.of_nat A)%Z) policy →
  (0 ≤ t_max)%Z →
  returns (calculate_state_distribution policy T t_max)
  ∧ calculate_state_distribution policy T t_max
    = calculate_state_distribution (resolve_action A <$> policy) T t_max.
Proof.
  intros Hshape Hpolicy Ht.
  set (policy' := resolve_action A <$> policy).
  assert (Hlen : length policy = length policy')
    by (unfold policy'; by rewrite length_fmap).
  assert (HlenT : length T = A) by apply Hshape.
  assert (Hread : ∀ s s', s < length policy →
    getitem3 T (default 0%Z (policy !! s)) (Z.of_nat s) s'
    = getitem3 T (default 0%Z (policy' !! s)) (Z.of_nat s) s').
  { intros s s' Hs. unfold policy'. rewrite list_lookup_fmap.
    destruct (lookup_lt_is_Some_2 policy s Hs) as [a Ha]. rewrite Ha. simpl.
    rewrite <- HlenT. apply getitem3_resolve. rewrite HlenT.
    apply (Forall_lookup_1 _ _ _ _ Hpolicy Ha). }
  assert (Hrange' : policy_in_range policy' A).
  { unfold policy_in_range, policy'. apply Forall_fmap.
    eapply List.Forall_impl; [|exact Hpolicy]. intros a Ha. simpl.
    apply np_index_resolve, Ha. }
  assert (Hreads' : reads_defined policy' T).
  { apply (shape_reads_defined policy' T A); [by rewrite <- Hlen|done]. }
  assert (Hreads : reads_defined policy T).
  { intros s s' Hs Hs'. rewrite Hread by done. apply Hreads'; by rewrite <- Hlen. }
  rewrite !calculate_state_distribution_table by done.
  split; [by eexists|]. rewrite <- Hlen. f_equal. apply tab3_ext.
  intros s0 s t _ _ _. apply rho_spec_ext; [done|].
  intros s1 s2 Hs1. unfold T_pi. by rewrite Hread.
Qed.

Lemma X9_witness :
  returns (calculate_state_distribution [0; 0; 0; -1; 1; 1; -2]%Z
    [roll_row 4 7 <$> seq 0 7; replicate 7 (terminal_row 7)] 3)
  ∧ calculate_state_distribution [0; 0; 0; -1; 1; 1; -2]%Z
      [roll_row 4 7 <$> seq 0 7; replicate 7 (terminal_row 7)] 3
    = calculate_state_distribution (resolve_action 2 <$> [0; 0; 0; -1; 1; 1; -2]%Z)
      [roll_row 4 7 <$> seq 0 7; replicate 7 (terminal_row 7)] 3.
Proof.
  apply (X9_negative_actions_wrap [0; 0; 0; -1; 1; 1; -2]%Z
           [roll_row 4 7 <$> seq 0 7; replicate 7 (terminal_row 7)] 2 3).
  - apply (closed_has_shape 4 7).
  - repeat constructor; lia.
  - lia.
Defined.

(** ** The propagated arrays as probability distributions *)



Lemma big_sum_mul_l n f c :
  big_sum n (λ i, c * f i)%Qc = (c * big_sum n f)%Qc.
Proof.
  rewrite <- (big_sum_ext n (λ i, f i * c)%Qc) by (intros; ring).
  rewrite big_sum_mul_r. ring.
Qed.

Section distributions.
Context (policy : list Z) (T : tensor) (A : nat).
Local Abbreviation S := (length policy).
Context (Hshape : has_shape T A S) (Hpolicy : policy_in_range policy A).




End distributions.







(** ** The game under the propagator *)

Section game.
Context (n_sides max_score : Z) (policy : list Z).
Local Abbreviation S := (Z.to_nat (max_score + 2)).
Local Abbreviation T :=
  [ roll_row n_sides S <$> seq 0 S; replicate S (terminal_row S) ].
Context (Hn : (0 < n_sides)%Z) (HM : (0 ≤ max_score)%Z).
Context (Hlen : length policy = S) (Hpolicy : policy_in_range policy 2).

Lemma game_shape : has_shape T 2 (length policy).
Proof. rewrite Hlen. apply closed_has_shape. Qed.

(** No action leads from a state to a non-terminal state that is not
    strictly above it. *)
Lemma game_T_pi_upwards s s' :
  s < S - 1 → s ≤ s' → s' < S → T_pi policy T s' s = 0%Qc.
Proof.
  intros Hs Hle Hs'.
  destruct (T_pi_read policy T 2 game_shape Hpolicy s' s) as (a & Ha & _ & _ & Hrow);
    [lia|lia|].
  assert (Hzero : row T a s' !! s = Some 0%Qc).
  { destruct a as [|[|a]]; [| |lia].
    - rewrite closed_row_roll by done. unfold roll_row. case_bool_decide.
      + rewrite list_lookup_insert_ne by lia. unfold roll_partial.
        rewrite list_lookup_fmap, lookup_seq_lt by lia. simpl. unfold reach.
        by rewrite bool_decide_eq_false_2 by lia.
      + rewrite lookup_terminal_row by lia.
        by rewrite bool_decide_eq_false_2 by lia.
    - rewrite closed_row_stay by done. rewrite lookup_terminal_row by lia.
      by rewrite bool_decide_eq_false_2 by lia. }
  congruence.
Qed.

(** After [t] turns from [s0] the sum is at least [s0 + t], unless the game
    is over. *)
Lemma game_progress s0 s t :
  s < S - 1 → s < s0 + t → rho_spec policy T s0 s t = 0%Qc.
Proof.
  revert s. induction t as [|t IH]; intros s Hs Hlt.
  - simpl. by rewrite bool_decide_eq_false_2 by lia.
  - cbn [rho_spec]. rewrite Hlen.
    rewrite (big_sum_ext S _ (λ _, 0%Qc)); [apply big_sum_0|].
    intros s' Hs'. destruct (decide (s ≤ s')) as [Hle|Hgt].
    + rewrite game_T_pi_upwards by done. ring.
    + rewrite IH by lia. ring.
Qed.

End game.

(** X13: in the dice game, whatever the policy, every turn that does not
    end the game raises the sum by at least 1: from [s0], after [t] turns,
    no non-terminal state below [s0 + t] carries any probability. *)
Theorem X13_game_progress (n_sides max_score : Z) (policy : list Z)
    (t_max : Z) :
  (0 < n_sides)%Z → (0 ≤ max_score)%Z →
  length policy = Z.to_nat (max_score + 2) → policy_in_range policy 2 →
  (0 ≤ t_max)%Z →
  ∃ T rho, make_transition_matrix n_sides max_score = Ok T
     ∧ calculate_state_distribution policy T t_max = Ok rho
     ∧ ∀ s0 s t, s0 < length policy → (Z.of_nat s ≤ max_score)%Z →
         s < s0 + t → (Z.of_nat t ≤ t_max)%Z →
         get3 rho s0 s t = Some 0%Qc.
Proof.
  intros Hn HM Hlen Hpolicy Ht. do 2 eexists.
  split; [by apply make_transition_matrix_die; lia|].
  split; [apply calculate_state_distribution_table; [|done];
          apply (shape_reads_defined _ _ 2); [by apply game_shape|done]|].
  intros s0 s t Hs0 Hs Hlt Htmax. rewrite get3_tab3 by lia.
  f_equal. apply game_progress; (done || lia).
Qed.

Lemma X13_witness :
  ∃ T rho, make_transition_matrix 4 5 = Ok T
     ∧ calculate_state_distribution [0; 0; 0; 1; 1; 1; 0]%Z T 3 = Ok rho
     ∧ ∀ s0 s t, s0 < 7 → (Z.of_nat s ≤ 5)%Z →
         s < s0 + t → (Z.of_nat t ≤ 3)%Z →
         get3 rho s0 s t = Some 0%Qc.
Proof.
  apply (X13_game_progress 4 5 [0; 0; 0; 1; 1; 1; 0]%Z 3);
    try lia; try reflexivity.
  repeat constructor; lia.
Defined.

(** ** Shape and horizon of the propagated array *)

Lemma get3_tab3_None l m n f i j k :
  ¬ (i < l ∧ j < m ∧ k < n) → get3 (tab3 l m n f) i j k = None.
Proof.
  intros Hout. unfold get3, get2, get1.
  destruct (decide (i < l)) as [Hi|Hi].
  - rewrite lookup_tab3 by done. destruct (decide (j < m)) as [Hj|Hj].
    + rewrite lookup_tab2 by done. apply lookup_ge_None.
      rewrite length_tab1. lia.
    + rewrite (proj2 (lookup_ge_None _ _)); [done|]. rewrite length_tab2. lia.
  - rewrite (proj2 (lookup_ge_None _ _)); [done|]. rewrite length_tab3. lia.
Qed.

(** X15: the returned array has shape [(S, S, t_max + 1)] with
    [S = len(policy)]: a cell [rho[s0,s,t]] exists exactly when [s0 < S],
    [s < S] and [t <= t_max]. *)
Theorem X15_rho_shape (policy : list Z) (T : tensor) (t_max : Z) :
  reads_defined policy T → (0 ≤ t_max)%Z →
  ∃ rho, calculate_state_distribution policy T t_max = Ok rho
     ∧ ∀ s0 s t, is_Some (get3 rho s0 s t)
         ↔ s0 < length policy ∧ s < length policy ∧ (Z.of_nat t ≤ t_max)%Z.
Proof.
  intros Hreads Ht. eexists.
  split; [by apply calculate_state_distribution_table|].
  intros s0 s t. split.
  - intros [x Hx].
    destruct (decide (s0 < length policy ∧ s < length policy
                      ∧ t < Z.to_nat (t_max + 1))) as [Hin|Hout]; [lia|].
    by rewrite get3_tab3_None in Hx.
  - intros (Hs0 & Hs & Htmax). rewrite get3_tab3 by lia. by eexists.
Qed.

Lemma X15_witness :
  ∃ rho, calculate_state_distribution [0; 1]%Z
           [roll_row 4 7 <$> seq 0 7; replicate 7 (terminal_row 7)] 3 = Ok rho
     ∧ ∀ s0 s t, is_Some (get3 rho s0 s t)
         ↔ s0 < 2 ∧ s < 2 ∧ (Z.of_nat t ≤ 3)%Z.
Proof.
  apply (X15_rho_shape [0; 1]%Z
           [roll_row 4 7 <$> seq 0 7; replicate 7 (terminal_row 7)] 3); [|lia].
  intros s s' Hs Hs'. simpl in Hs, Hs'.
  destruct s as [|[|s]], s' as [|[|s']]; try lia; by eexists.
Defined.

(** X16: a longer horizon only appends slices: the slices [t <= t_max] of
    the result for [t_max'] are those of the result for [t_max <= t_max']. *)
Theorem X16_horizon_prefix (policy : list Z) (T : tensor) (t_max t_max' : Z) :
  reads_defined policy T → (0 ≤ t_max ≤ t_max')%Z →
  ∃ rho rho', calculate_state_distribution policy T t_max = Ok rho
     ∧ calculate_state_distribution policy T t_max' = Ok rho'
     ∧ ∀ s0 s t, (Z.of_nat t ≤ t_max)%Z →
         get3 rho s0 s t = get3 rho' s0 s t.
Proof.
  intros Hreads Ht. do 2 eexists.
  split; [apply calculate_state_distribution_table; (done || lia)|].
  split; [apply calculate_state_distribution_table; (done || lia)|].
  intros s0 s t Htmax.
  destruct (decide (s0 < length policy ∧ s < length policy)) as [[Hs0 Hs]|Hout].
  - by rewrite !get3_tab3 by lia.
  - by rewrite !get3_tab3_None by lia.
Qed.

Lemma X16_witness :
  ∃ rho rho',
    calculate_state_distribution [0; 1]%Z
      [roll_row 4 7 <$> seq 0 7; replicate 7 (terminal_row 7)] 2 = Ok rho
    ∧ calculate_state_distribution [0; 1]%Z
      [roll_row 4 7 <$> seq 0 7; replicate 7 (terminal_row 7)] 5 = Ok rho'
    ∧ ∀ s0 s t, (Z.of_nat t ≤ 2)%Z → get3 rho s0 s t = get3 rho' s0 s t.
Proof.
  apply (X16_horizon_prefix [0; 1]%Z
           [roll_row 4 7 <$> seq 0 7; replicate 7 (terminal_row 7)] 2 5); [|lia].
  intros s s' Hs Hs'. simpl in Hs, Hs'.
  destruct s as [|[|s]], s' as [|[|s']]; try lia; by eexists.
Defined.

Lemma rho_spec_one_step (policy : list Z) (T : tensor) s0 s :
  s0 < length policy → rho_spec policy T s0 s 1 = T_pi policy T s0 s.
Proof.
  intros Hs0. cbn [rho_spec].
  rewrite (big_sum_ext _ _ (λ s',
    T_pi policy T s0 s * (if bool_decide (s' = s0) then 1 else 0))%Qc).
  2:{ intros s' _. case_bool_decide; subst; (done || ring). }
  rewrite big_sum_mul_l, big_sum_indicator by done. ring.
Qed.

(** X17: the slice [t = 1] of the returned array is the transition matrix
    under the policy: [rho[s0,s,1] = T[policy[s0], s0, s]]. *)
Theorem X17_first_step (policy : list Z) (T : tensor) (A : nat) (t_max : Z) :
  has_shape T A (length policy) → policy_in_range policy A → (1 ≤ t_max)%Z →
  ∃ rho, calculate_state_distribution policy T t_max = Ok rho
     ∧ ∀ s0 s, s0 < length policy → s < length policy →
         get3 rho s0 s 1
         = get3 T (Z.to_nat (default 0%Z (policy !! s0))) s0 s.
Proof.
  intros Hshape Hpolicy Ht. eexists.
  split; [apply calculate_state_distribution_table;
          [by eapply shape_reads_defined|lia]|].
  intros s0 s Hs0 Hs. rewrite get3_tab3 by lia.
  rewrite rho_spec_one_step by done.
  destruct (T_pi_read policy T A Hshape Hpolicy s0 s Hs0 Hs)
    as (a & _ & -> & Hget & _).
  by rewrite Nat2Z.id.
Qed.

Lemma X17_witness :
  ∃ rho, calculate_state_distribution [0; 0; 0; 1; 1; 1; 0]%Z
           [roll_row 4 7 <$> seq 0 7; replicate 7 (terminal_row 7)] 3 = Ok rho
     ∧ ∀ s0 s, s0 < 7 → s < 7 →
         get3 rho s0 s 1
         = get3 [roll_row 4 7 <$> seq 0 7; replicate 7 (terminal_row 7)]
             (Z.to_nat (default 0%Z ([0; 0; 0; 1; 1; 1; 0]%Z !! s0))) s0 s.
Proof.
  apply (X17_first_step [0; 0; 0; 1; 1; 1; 0]%Z
           [roll_row 4 7 <$> seq 0 7; replicate 7 (terminal_row 7)] 2 3).
  - apply (closed_has_shape 4 7).
  - repeat constructor; lia.
  - lia.
Defined.

(** ** A policy shorter than the state space *)

Section short_policy.
Context (policy : list Z) (T : tensor) (A ST : nat).
Local Abbreviation S := (length policy).
Context (Hshape : has_shape T A ST) (Hshort : S ≤ ST).
Context (Hpolicy : policy_in_range policy A).





End short_policy.



(** ** The builder on doubles *)

(** X19: on doubles, for every [n_sides] and [max_score] of 1..32, the
    builder returns a tensor whose rows have [S = max_score + 2] cells and
    sum to 1 within [1e-9], whether the sum is numpy's or is taken with no
    rounding, and whose cells all lie in [0, 1]. *)
Theorem X19_rows_on_doubles (n_sides max_score : Z) :
  (1 ≤ n_sides ≤ 32)%Z → (1 ≤ max_score ≤ 32)%Z →
  let S := Z.to_nat (max_score + 2) in
  ∃ T, F64.make_transition_matrix n_sides max_score = Ok T
     ∧ (∀ a s, a < 2 → s < S →
          length (F64.row T a s) = S ∧ row_close (1 # 10 ^ 9) (F64.row T a s))
     ∧ (∀ a s s' x, F64.get3 T a s s' = Some x → unit_interval x).
Proof.
  intros Hn HM S.
  pose proof (each_pair_spec _ _ n_sides max_score rows_close_on_grid
                ltac:(lia) ltac:(lia)) as Hok.
  destruct (F64.make_transition_matrix n_sides max_score) as [T|e] eqn:HT.
  2:{ unfold rows_close in Hok. by rewrite HT in Hok. }
  exists T. split; [done|].
  destruct (rows_close_spec _ _ _ T Hok HT) as [HlenT Hrows]. fold S in Hrows.
  split.
  - intros a s Ha Hs.
    destruct (lookup_lt_is_Some_2 T a ltac:(lia)) as [M HM'].
    destruct (Hrows a M HM') as [HlenM HM''].
    destruct (lookup_lt_is_Some_2 M s ltac:(lia)) as [r Hr].
    destruct (HM'' s r Hr) as (? & ? & _).
    by rewrite (F64_row_lookup T a s M r).
  - intros a s s' x. unfold F64.get3.
    destruct (T !! a) as [M|] eqn:HM'; [|done].
    destruct (M !! s) as [r|] eqn:Hr; [|done]. intros Hx.
    destruct (Hrows a M HM') as [_ HM''].
    destruct (HM'' s r Hr) as (_ & _ & Hcells). by eapply Hcells.
Qed.

Lemma X19_witness :
  ∃ T, F64.make_transition_matrix 20 21 = Ok T
     ∧ (∀ a s, a < 2 → s < 23 →
          length (F64.row T a s) = 23 ∧ row_close (1 # 10 ^ 9) (F64.row T a s))
     ∧ (∀ a s s' x, F64.get3 T a s s' = Some x → unit_interval x).
Proof. apply (X19_rows_on_doubles 20 21); lia. Defined.
